(** * Verification of the icon generator [Assets/generate_icon.py]

    The program draws one 256x256 RGBA badge with Pillow and writes it as
    a multi-size [app.ico] and a reference [app.png].

    - [Float64]: the fragment of Python's float arithmetic the program
      uses ([int / int], [int * float], [int(float)]), as correctly
      rounded IEEE 754 binary64 operations on exact values.
    - [Gradient]: [create_gradient] and its mask loop.
    - [Icon]: [generate_app_icon], over an interface for what Pillow
      rasterises, resamples and encodes, and over a small file system. *)

From Stdlib Require Import ZArith Lia Floats.SpecFloat.
From stdpp Require Import base numbers option list sorting strings gmap.

#[local] Open Scope Z_scope.

(** ** Binary64 arithmetic *)

Module Float64.

(** Every finite double is an integer multiple of [2^-1074], the smallest
    subnormal.  A float is kept as that integer: [units f] stands for the
    value [units f / 2^1074].  The sign of a zero is not kept; no
    operation below can observe it. *)
Record float := Float { units : Z }.

Definition denorm_exp : Z := 1074.
Definition one_unit : Z := 2 ^ denorm_exp.
(** [2^1024], the first magnitude that is no longer finite, in units. *)
Definition overflow_units : Z := 2 ^ (1024 + denorm_exp).

(** Nearest integer to [num / den], ties to the even one ([0 < den]). *)
Definition rne (num den : Z) : Z :=
  let q := num / den in
  let r := num mod den in
  match 2 * r ?= den with
  | Lt => q
  | Gt => q + 1
  | Eq => if Z.even q then q else q + 1
  end.

(** The value [num / den] ([0 <= num], [0 < den]) rounded to 53
    significant bits, counted in units of [2^-u].  [N / den] is the value
    in units; a value with [e + 1] bits before the point keeps its 53
    leading bits, so it is rounded to a multiple of [2 ^ (e - 52)]; below
    [2^53] units (subnormals and the lowest binade) the spacing is one
    unit. *)
Definition round_units_at (u num den : Z) : Z :=
  let N := num * 2 ^ u in
  let e := Z.log2 (N / den) in
  let j := Z.max (e - 52) 0 in
  rne N (den * 2 ^ j) * 2 ^ j.

Definition round_units (num den : Z) : Z := round_units_at denorm_exp num den.

(** Round to nearest even with the sign handled by symmetry; [None] when
    the rounded magnitude reaches [2^1024]. *)
Definition round_ne (num den : Z) : option float :=
  let z := round_units (Z.abs num) den in
  if z <? overflow_units then Some (Float (Z.sgn num * z)) else None.

(** [a / b] on Python ints: the correctly rounded quotient;
    ZeroDivisionError and OverflowError are [None]. *)
Definition true_div (a b : Z) : option float :=
  if b =? 0 then None
  else if 0 <? b then round_ne a b
  else round_ne (- a) (- b).

(** [float(n)] for a Python int. *)
Definition of_int (n : Z) : option float := round_ne n 1.

(** [x * y] on floats.  [None] stands for an infinite product, which the
    only consumer here, [int(...)], turns into OverflowError. *)
Definition mul (x y : float) : option float :=
  round_ne (units x * units y) (one_unit * one_unit).

(** [int(x)]: truncation towards zero. *)
Definition to_int (x : float) : Z := Z.quot (units x) one_unit.

(** [n * x] for a Python int [n] and a float [x]: the int is converted
    first. *)
Definition int_mul (n : Z) (x : float) : option float :=
  c ← of_int n; mul c x.

(** [round(x)] on a float: nearest integer, ties to even. *)
Definition py_round (x : float) : Z :=
  Z.sgn (units x) * rne (Z.abs (units x)) one_unit.

(** The same value read from the Standard Library's binary64 format. *)
Definition of_spec (f : spec_float) : option Z :=
  match f with
  | S754_zero _ => Some 0
  | S754_finite s m e =>
      Some ((if s then -1 else 1) * (Z.pos m * 2 ^ (e + denorm_exp)))
  | _ => None
  end.

Definition spec_of_int (n : Z) : spec_float := binary_normalize 53 1024 n 0 false.
Definition spec_div (a b : Z) : spec_float :=
  SFdiv 53 1024 (spec_of_int a) (spec_of_int b).
Definition spec_int_mul (n : Z) (x : spec_float) : spec_float :=
  SFmul 53 1024 (spec_of_int n) x.

(** [a / b] and [n * (a / b)] computed on both sides agree. *)
Definition agrees (f : spec_float) (o : option float) : bool :=
  bool_decide (of_spec f = units <$> o).
Definition div_agrees (a b : Z) : bool := agrees (spec_div a b) (true_div a b).
Definition scaled_div_agrees (n a b : Z) : bool :=
  agrees (spec_int_mul n (spec_div a b)) (true_div a b ≫= int_mul n).

(** For a quotient [k / n] whose 255-fold has integer part [q], two
    fractions that enclose it when [n <= 2^32]: [q / 255] from below and
    the largest multiple of [2^-40] under [(q + 1) / 255] from above.
    [bracket_ok q] runs both through the two roundings and checks that the
    results stay within [[q, q + 1)].  The fractions and their 255-folds
    have 53 significant bits already in units of [2^-64], where the check
    is run. *)
Definition scaled_units (num den : Z) : Z :=
  round_units (255 * one_unit * round_units num den) (one_unit * one_unit).
Definition small_exp : Z := 64.
Definition normal_at (u num den : Z) : bool := 2 ^ 52 * den <=? num * 2 ^ u.
Definition scaled_small (num den : Z) : Z :=
  round_units_at small_exp (255 * round_units_at small_exp num den) (2 ^ small_exp).
Definition scaled_normal (num den : Z) : bool :=
  normal_at small_exp num den
  && normal_at small_exp (255 * round_units_at small_exp num den) (2 ^ small_exp).
Definition upper_num (q : Z) : Z := ((q + 1) * 2 ^ 40 - 1) / 255.
Definition bracket_ok (q : Z) : bool :=
  ((q =? 0) || scaled_normal q 255 && (q * 2 ^ small_exp <=? scaled_small q 255))
  && scaled_normal (upper_num q) (2 ^ 40)
  && (scaled_small (upper_num q) (2 ^ 40) <? (q + 1) * 2 ^ small_exp).

End Float64.

(** ** What the program uses of Pillow *)

Module Pillow.

(** A Python tuple of channel values, as passed for [fill] and to
    [Image.new]. *)
Definition color := list Z.

Definition rgba := (Z * Z * Z * Z)%type.

(** An image: its size and its pixels row by row.  Mode [L] is
    [Image Z], mode [RGBA] is [Image rgba]. *)
Record Image (A : Type) := mkImage {
  im_width : Z;
  im_height : Z;
  im_data : list A
}.
Arguments mkImage {A} _ _ _.
Arguments im_width {A} _.
Arguments im_height {A} _.
Arguments im_data {A} _.

Definition im_size {A} (im : Image A) : Z * Z := (im_width im, im_height im).

(** Pillow hands a size to its C core as two C ints; a negative one is a
    ValueError, and the core refuses, with MemoryError, a width above
    [INT_MAX / 4 - 1], for which a line of four bytes per pixel would
    not fit a C int.  Beyond these checks an allocation is taken to
    succeed: running out of memory is not modelled. *)
Definition INT_MAX : Z := 2 ^ 31 - 1.
Definition size_ok (size : Z * Z) : bool :=
  (0 <=? size.1) && (size.1 <=? INT_MAX / 4 - 1)
  && (0 <=? size.2) && (size.2 <=? INT_MAX).

(** The C types the core reads the channels of a color into. *)
Definition is_int (v : Z) : bool := (- 2 ^ 31 <=? v) && (v <=? INT_MAX).
Definition is_long_long (v : Z) : bool := (- 2 ^ 63 <=? v) && (v <=? 2 ^ 63 - 1).

Definition clip8 (v : Z) : Z := Z.max 0 (Z.min 255 v).

(** The pixel the core makes of a color for an RGBA image.  A tuple of
    three or four ints is read as a C long long and C ints
    (OverflowError outside their ranges) and each channel is clipped to a
    byte; an RGB tuple is opaque.  A tuple of one int stands for that
    int, whose four low bytes are the channels, red lowest.  Any other
    length is a TypeError. *)
Definition ink (c : color) : option rgba :=
  match c with
  | [v] =>
      if is_long_long v
      then Some (Z.land v 255, Z.land (Z.shiftr v 8) 255,
                 Z.land (Z.shiftr v 16) 255, Z.land (Z.shiftr v 24) 255)
      else None
  | [r; g; b] =>
      if is_long_long r && is_int g && is_int b
      then Some (clip8 r, clip8 g, clip8 b, 255)
      else None
  | [r; g; b; a] =>
      if is_long_long r && is_int g && is_int b && is_int a
      then Some (clip8 r, clip8 g, clip8 b, clip8 a)
      else None
  | _ => None
  end.

(** [Image.new('L', size, v)] and [Image.new('RGBA', size, c)]. *)
Definition new_L (size : Z * Z) (v : Z) : option (Image Z) :=
  if size_ok size && is_long_long v
  then Some (mkImage size.1 size.2 (replicate (Z.to_nat (size.1 * size.2)) (clip8 v)))
  else None.

Definition new_RGBA (size : Z * Z) (c : color) : option (Image rgba) :=
  if size_ok size
  then p ← ink c;
       Some (mkImage size.1 size.2 (replicate (Z.to_nat (size.1 * size.2)) p))
  else None.

Definition getpixel {A} (im : Image A) (xy : Z * Z) : option A :=
  if (0 <=? xy.1) && (xy.1 <? im_width im) && (0 <=? xy.2) && (xy.2 <? im_height im)
  then im_data im !! Z.to_nat (xy.2 * im_width im + xy.1)
  else None.

(** [im.putdata(data)] on a mode [L] image: the values fill the image
    from its first pixel on, each clipped to a byte; more values than
    pixels is an error. *)
Definition putdata (im : Image Z) (data : list Z) : option (Image Z) :=
  if Z.of_nat (length data) <=? im_width im * im_height im
  then Some (mkImage (im_width im) (im_height im)
               ((clip8 <$> data) ++ drop (length data) (im_data im)))
  else None.

Inductive draw_call :=
  | rounded_rectangle (xy : list (Z * Z)) (radius : Z) (fill : color)
  | line (xy : list (Z * Z)) (fill : color) (width : Z) (joint : string)
  | rectangle (xy : list Z) (fill : color).

Inductive resample := NEAREST | BOX | BILINEAR | HAMMING | BICUBIC | LANCZOS.

(** What Pillow computes and the program only calls: the mix of a masked
    paste, the rasteriser behind [ImageDraw], the resampler, the frame
    the ICO plugin scales by itself, and the two encoders.  The
    rasteriser gets the size of the image and its pixels and returns the
    pixels; the resampler returns the pixels of the new size; the ICO
    encoder gets the frames in the order they are written. *)
Class Raster := {
  blend : Z → Z → Z → Z;
  raster_L : draw_call → Z * Z → list Z → list Z;
  raster_RGBA : draw_call → Z * Z → list rgba → list rgba;
  resample_pixels : Image rgba → Z * Z → resample → list rgba;
  ico_scaled : list (Image rgba) → Z * Z → Image rgba;
  encode_png : Image rgba → list Z;
  encode_ico : list (Image rgba) → list Z
}.

Section WithRaster.
Context `{Raster}.

(** A call on [ImageDraw.Draw(im)] changes the pixels of [im] in place. *)
Definition draw_L (c : draw_call) (im : Image Z) : Image Z :=
  mkImage (im_width im) (im_height im) (raster_L c (im_size im) (im_data im)).

Definition draw_RGBA (c : draw_call) (im : Image rgba) : Image rgba :=
  mkImage (im_width im) (im_height im) (raster_RGBA c (im_size im) (im_data im)).

Definition blend_pixel (m : Z) (d s : rgba) : rgba :=
  let '(dr, dg, db, da) := d in
  let '(sr, sg, sb, sa) := s in
  (blend m dr sr, blend m dg sg, blend m db sb, blend m da sa).

(** [dst.paste(src, (0, 0), mask)].  Pillow refuses a mask whose size is
    not that of [src]; it would clip a [src] that overhangs [dst], which
    the program never asks for and which is refused here. *)
Definition paste (dst src : Image rgba) (mask : Image Z) : option (Image rgba) :=
  if bool_decide (im_size mask = im_size src ∧ im_size src = im_size dst)
  then Some (mkImage (im_width dst) (im_height dst)
               (zip_with (λ d sm, blend_pixel sm.2 d sm.1)
                  (im_data dst) (zip (im_data src) (im_data mask))))
  else None.

(** [im.resize(size, filter)].  [Image.resize] returns [self.copy()]
    when [size] is the size the image has, before anything is resampled;
    otherwise the core makes an image of the new size, which must be at
    least 1x1 (ValueError) and pass the checks of a new image. *)
Definition resize (im : Image rgba) (size : Z * Z) (filter : resample)
    : option (Image rgba) :=
  if bool_decide (im_size im = size) then Some im
  else if size_ok size && (1 <=? size.1) && (1 <=? size.2)
       then Some (mkImage size.1 size.2 (resample_pixels im size filter))
       else None.

(** [sorted(set(sizes))]: the sizes without repetitions, ascending in
    the order of Python's tuples. *)
Definition size_ltb (a b : Z * Z) : bool :=
  (a.1 <? b.1) || ((a.1 =? b.1) && (a.2 <? b.2)).

Fixpoint insert_size (s : Z * Z) (l : list (Z * Z)) : list (Z * Z) :=
  match l with
  | [] => [s]
  | t :: l' =>
      if size_ltb s t then s :: l
      else if size_ltb t s then t :: insert_size s l'
      else l
  end.

Definition sorted_set (sizes : list (Z * Z)) : list (Z * Z) :=
  foldr insert_size [] sizes.

(** The frames [im.save(path, format='ICO', sizes=sizes,
    append_images=append_images)] writes, in file order
    ([IcoImagePlugin._save]).  The plugin goes through
    [sorted(set(sizes))]; it skips a size larger than [im] or than
    256x256; for each other size it takes the first of [im] and the
    appended images that has this size, and scales one itself when none
    has. *)
Definition ico_skips (im : Image rgba) (size : Z * Z) : bool :=
  (im_width im <? size.1) || (im_height im <? size.2)
  || (256 <? size.1) || (256 <? size.2).

Definition ico_frame (provided_ims : list (Image rgba)) (size : Z * Z) : Image rgba :=
  default (ico_scaled provided_ims size)
    (head (filter (λ provided_im, im_size provided_im = size) provided_ims)).

Definition ico_frames (im : Image rgba) (sizes : list (Z * Z))
    (append_images : list (Image rgba)) : list (Image rgba) :=
  let provided_ims := im :: append_images in
  sorted_set sizes ≫= λ size,
    if ico_skips im size then [] else [ico_frame provided_ims size].

End WithRaster.

(** The documented behaviour the proofs rely on. *)

(** "Where the mask is 0, the current value is preserved." *)
Definition blend_keeps `{Raster} : Prop := ∀ d s, blend 0 d s = d.

(** A rounded rectangle touches no pixel outside its bounding box. *)
Definition rounded_rectangle_inside `{Raster} : Prop :=
  ∀ x0 y0 x1 y1 radius fill (im : Image Z) x y,
    ¬ (x0 ≤ x ≤ x1 ∧ y0 ≤ y ≤ y1) →
    getpixel (draw_L (rounded_rectangle [(x0, y0); (x1, y1)] radius fill) im) (x, y)
    = getpixel im (x, y).

(** "Where the mask is 255, the given image is copied as is." *)
Definition blend_copies `{Raster} : Prop := ∀ d s, blend 255 d s = s.

End Pillow.

(** ** Loops *)

Module Loops.

(** [for x in xs: body], with the variables the body assigns as the state
    and a raised exception as [None]. *)
Fixpoint for_each {A S} (xs : list A) (body : A → S → option S) (s : S) : option S :=
  match xs with
  | [] => Some s
  | x :: xs => s' ← body x s; for_each xs body s'
  end.

(** [range(stop)]. *)
Definition range (stop : Z) : list Z := seqZ 0 stop.

(** [range(start, stop, step)]; Python rejects [step = 0], for which this
    is empty. *)
Definition range3 (start stop step : Z) : list Z :=
  let n := if 0 <? step then (stop - start + step - 1) / step
           else (start - stop - step - 1) / (- step) in
  (λ i, start + i * step) <$> seqZ 0 n.

End Loops.

(** ** [create_gradient] *)

Module Gradient.
Import Float64 Pillow Loops.

Definition blend_factor (width height x y : Z) : option float :=
  true_div (x + y) (width + height).

(** [int(255 * p)] for the pixel [(x, y)]. *)
Definition mask_value (width height x y : Z) : option Z :=
  p ← blend_factor width height x y;
  v ← int_mul 255 p;
  Some (to_int v).

(** The two nested loops that fill [mask_data]. *)
Definition mask_row (width height y : Z) (mask_data : list Z) : option (list Z) :=
  for_each (range width)
    (λ x mask_data, v ← mask_value width height x y; Some (mask_data ++ [v]))
    mask_data.

Definition mask_data (width height : Z) : option (list Z) :=
  for_each (range height) (mask_row width height) [].

Definition gradient_mask (width height : Z) : option (Image Z) :=
  mask ← new_L (width, height) 0;
  mask_data ← mask_data width height;
  putdata mask mask_data.

Definition create_gradient `{Raster} (width height : Z) (start_color end_color : color)
    : option (Image rgba) :=
  base ← new_RGBA (width, height) start_color;
  top ← new_RGBA (width, height) end_color;
  mask ← gradient_mask width height;
  paste base top mask.

(** The mask value in the words of the specification: the integer part of
    the exact [255 * (x + y) / (width + height)]. *)
Definition truncated_blend (width height x y : Z) : Z :=
  255 * (x + y) / (width + height).

(** The exact values row by row. *)
Definition exact_rows (width height : Z) : list Z :=
  range height ≫= λ y, (λ x, truncated_blend width height x y) <$> range width.

End Gradient.

(** ** [generate_app_icon] *)

Module Icon.
Import Float64 Pillow Loops Gradient.

(** Configuration *)
Definition size : Z := 256.
Definition padding : Z := 20.
Definition border_width : Z := 8.

(** Colors *)
Definition color_cyan : color := [0; 212; 255].
Definition color_purple : color := [189; 0; 255].
Definition color_bg : color := [10; 10; 18].
Definition color_white : color := [255; 255; 255].

Definition corner_radius : Z := 60.
Definition outer_mask_call : draw_call :=
  rounded_rectangle [(padding, padding); (size - padding, size - padding)]
    corner_radius [255].

Definition inner_padding : Z := padding + border_width.
Definition inner_mask_call : draw_call :=
  rounded_rectangle
    [(inner_padding, inner_padding); (size - inner_padding, size - inner_padding)]
    (corner_radius - 5) [255].

Definition center_x : Z := size / 2.
Definition center_y : Z := size / 2.

Definition arrow_width : Z := 20.
Definition arrow_size : Z := 60.
Definition arrow_offset_x : Z := -30.

Definition p1 : Z * Z := (center_x + arrow_offset_x - arrow_size / 2, center_y - arrow_size).
Definition p2 : Z * Z := (center_x + arrow_offset_x + arrow_size / 2, center_y).
Definition p3 : Z * Z := (center_x + arrow_offset_x - arrow_size / 2, center_y + arrow_size).

(** [int(50 / i)] *)
Definition glow_alpha (i : Z) : option Z := to_int <$> true_div 50 i.

(** The call of one round of the glow loop for ">" and the sharp line
    after it. *)
Definition chevron_glow_call (i : Z) : option draw_call :=
  alpha ← glow_alpha i;
  let w := arrow_width + i * 4 in
  Some (line [p1; p2; p3] (color_cyan ++ [alpha]) w "curve").

Definition chevron_main_call : draw_call :=
  line [p1; p2; p3] color_white arrow_width "curve".

Definition cursor_w : Z := 50.
Definition cursor_h : Z := 15.
Definition cursor_x : Z := center_x + 30.
Definition cursor_y : Z := center_y + 40.

Definition cursor_rect : list Z :=
  [cursor_x; cursor_y; cursor_x + cursor_w; cursor_y + cursor_h].

(** The call of one round of the glow loop for "_" and the solid bar
    after it. *)
Definition cursor_glow_call (i : Z) : option draw_call :=
  alpha ← glow_alpha i;
  let expand := i * 3 in
  let r := [nth 0 cursor_rect 0 - expand; nth 1 cursor_rect 0 - expand;
            nth 2 cursor_rect 0 + expand; nth 3 cursor_rect 0 + expand] in
  Some (rectangle r (color_purple ++ [alpha])).

Definition cursor_main_call : draw_call := rectangle cursor_rect color_purple.

Definition glow_rounds : list Z := range3 5 0 (-1).

(** The calls each glyph makes on the canvas, in order. *)
Definition chevron_strokes : option (list draw_call) :=
  glow ← mapM chevron_glow_call glow_rounds;
  Some (glow ++ [chevron_main_call]).

Definition cursor_strokes : option (list draw_call) :=
  glow ← mapM cursor_glow_call glow_rounds;
  Some (glow ++ [cursor_main_call]).

Definition sizes : list (Z * Z) :=
  [(256, 256); (128, 128); (64, 64); (48, 48); (32, 32); (16, 16)].

(** The glow alpha in the words of the specification: [round(50 / i)]. *)
Definition rounded_alpha (i : Z) : option Z := py_round <$> true_div 50 i.

(** What a stroke looks like.  Its extent is the width of a line and,
    for a rectangle, the number of pixels by which it reaches beyond the
    cursor bar, on its four sides alike (none when the sides differ).
    Its opacity is the alpha channel Pillow makes of its fill. *)
Definition stroke_extent (c : draw_call) : option Z :=
  match c with
  | line _ _ width _ => Some width
  | rectangle [x0; y0; x1; y1] _ =>
      let d := cursor_x - x0 in
      if bool_decide (y0 = cursor_y - d ∧ x1 = cursor_x + cursor_w + d
                      ∧ y1 = cursor_y + cursor_h + d)
      then Some d else None
  | _ => None
  end.

Definition stroke_fill (c : draw_call) : color :=
  match c with
  | line _ fill _ _ | rectangle _ fill | rounded_rectangle _ _ fill => fill
  end.

Definition stroke_alpha (c : draw_call) : option Z :=
  (λ p : rgba, p.2) <$> ink (stroke_fill c).

(** Both measures are there and the first is the smaller one. *)
Definition below (a b : option Z) : Prop :=
  match a, b with
  | Some x, Some y => x < y
  | _, _ => False
  end.

(** A bounding box moved inwards by [d] on its four sides. *)
Definition shrink_box (d : Z) (xy : list (Z * Z)) : list (Z * Z) :=
  match xy with
  | [(x0, y0); (x1, y1)] => [(x0 + d, y0 + d); (x1 - d, y1 - d)]
  | _ => xy
  end.

Definition call_box (c : draw_call) : list (Z * Z) :=
  match c with
  | rounded_rectangle xy _ _ => xy
  | line xy _ _ _ => xy
  | rectangle _ _ => []
  end.

Definition call_radius (c : draw_call) : Z :=
  match c with rounded_rectangle _ radius _ => radius | _ => 0 end.

(** The files and directories the program can see, and what it printed. *)
Record fs := mkFs {
  dirs : gset string;
  files : gmap string (list Z);
  stdout : list string
}.

(** The backslash of Windows paths (character 92). *)
Definition sep : string := String (Ascii.ascii_of_nat 92) EmptyString.
(** [os.path.join] *)
Definition join (dir name : string) : string := dir +:+ sep +:+ name.

(** [os.path.exists] *)
Definition path_exists (p : string) (s : fs) : bool :=
  bool_decide (p ∈ dirs s ∨ is_Some (files s !! p)).

(** [os.makedirs(p)]: FileExistsError when [p] is there already.  The
    ancestors of [p] are not looked at: they are taken to be directories
    or to be created on the way, and the ones created are not recorded;
    a drive that is missing or a regular file in the place of an
    ancestor, for which [os.makedirs] raises, is not modelled. *)
Definition makedirs (p : string) (s : fs) : option fs :=
  if path_exists p s then None
  else Some (mkFs ({[p]} ∪ dirs s) (files s) (stdout s)).

(** Writing [bytes] to [join dir name]: the directory must be there and
    the target must not be a directory; an old file is replaced. *)
Definition write_file (dir name : string) (bytes : list Z) (s : fs) : option fs :=
  if bool_decide (dir ∈ dirs s ∧ join dir name ∉ dirs s)
  then Some (mkFs (dirs s) (<[join dir name := bytes]> (files s)) (stdout s))
  else None.

Definition print (text : string) (s : fs) : fs :=
  mkFs (dirs s) (files s) (stdout s ++ [text]).

Definition output_dir : string := "D:\Qian_code\ai_program\MyAiHelper\Assets".
Definition output_path : string := join output_dir "app.ico".
Definition png_path : string := join output_dir "app.png".

Section WithRaster.
Context `{Raster}.

(** Steps 2 to 4: the rounded square, the gradient, and the gradient cut
    to the square. *)
Definition outer_mask : option (Image Z) :=
  mask ← new_L (size, size) 0;
  Some (draw_L outer_mask_call mask).

Definition gradient_shape : option (Image rgba) :=
  mask ← outer_mask;
  gradient ← create_gradient size size color_cyan color_purple;
  icon_shape ← new_RGBA (size, size) [0; 0; 0; 0];
  paste icon_shape gradient mask.

(** Step 5: the dark panel pasted into the centre. *)
Definition inner_mask : option (Image Z) :=
  inner_mask ← new_L (size, size) 0;
  Some (draw_L inner_mask_call inner_mask).

Definition paste_panel (icon_shape : Image rgba) : option (Image rgba) :=
  inner_mask ← inner_mask;
  dark_layer ← new_RGBA (size, size) color_bg;
  paste icon_shape dark_layer inner_mask.

(** Step 6: the two glyphs, each a glow loop and a final stroke. *)
Definition draw_glyphs (icon_shape : Image rgba) : option (Image rgba) :=
  icon_shape ← for_each glow_rounds
    (λ i icon_shape, c ← chevron_glow_call i; Some (draw_RGBA c icon_shape))
    icon_shape;
  let icon_shape := draw_RGBA chevron_main_call icon_shape in
  icon_shape ← for_each glow_rounds
    (λ i icon_shape, c ← cursor_glow_call i; Some (draw_RGBA c icon_shape))
    icon_shape;
  Some (draw_RGBA cursor_main_call icon_shape).

(** The canvas that is exported. *)
Definition compose_icon : option (Image rgba) :=
  img ← new_RGBA (size, size) [0; 0; 0; 0];
  icon_shape ← gradient_shape;
  icon_shape ← paste_panel icon_shape;
  draw_glyphs icon_shape.

(** Step 7 *)
Definition ensure_output_dir (s : fs) : option fs :=
  if negb (path_exists output_dir s) then makedirs output_dir s else Some s.

Definition resample_all (icon_shape : Image rgba) : option (list (Image rgba)) :=
  for_each sizes
    (λ s icon_images,
       resampled ← resize icon_shape s LANCZOS;
       Some (icon_images ++ [resampled]))
    [].

(** [icon_images[0].save(..., sizes=sizes, append_images=icon_images[1:])] *)
Definition save_ico (icon_images : list (Image rgba)) (s : fs) : option fs :=
  match icon_images with
  | [] => None
  | first :: rest =>
      write_file output_dir "app.ico" (encode_ico (ico_frames first sizes rest)) s
  end.

Definition save_png (icon_shape : Image rgba) (s : fs) : option fs :=
  write_file output_dir "app.png" (encode_png icon_shape) s.

Definition export (icon_shape : Image rgba) (s : fs) : option fs :=
  s ← ensure_output_dir s;
  icon_images ← resample_all icon_shape;
  s ← save_ico icon_images s;
  let s := print ("Icon generated successfully at: " +:+ output_path) s in
  s ← save_png icon_shape s;
  Some (print ("PNG version saved at: " +:+ png_path) s).

Definition generate_app_icon (s : fs) : option fs :=
  icon_shape ← compose_icon;
  export icon_shape s.

End WithRaster.

End Icon.

(** ** A small rasteriser

    An instance of [Raster] on which the definitions can be run: boxes
    with square corners and no anti-aliasing, no lines, nearest-neighbour
    resampling, and pixel dumps for encodings. *)

Module Reference.
Import Pillow.

(** The integer mix Pillow uses for a mask byte, its two ends exact. *)
Definition blend8 (m d s : Z) : Z :=
  if m =? 0 then d
  else if m =? 255 then s
  else let t := d * (255 - m) + s * m + 128 in Z.shiftr (Z.shiftr t 8 + t) 8.

Definition in_box (x0 y0 x1 y1 width : Z) (i : nat) : bool :=
  let x := Z.of_nat i mod width in
  let y := Z.of_nat i / width in
  (x0 <=? x) && (x <=? x1) && (y0 <=? y) && (y <=? y1).

Definition fill_box {A} (x0 y0 x1 y1 : Z) (p : A) (size : Z * Z) (data : list A) : list A :=
  imap (λ i old, if in_box x0 y0 x1 y1 size.1 i then p else old) data.

Definition flat_L (c : draw_call) (size : Z * Z) (data : list Z) : list Z :=
  match c with
  | rounded_rectangle [(x0, y0); (x1, y1)] _ [v] => fill_box x0 y0 x1 y1 v size data
  | rectangle [x0; y0; x1; y1] [v] => fill_box x0 y0 x1 y1 v size data
  | _ => data
  end.

Definition flat_RGBA (c : draw_call) (size : Z * Z) (data : list rgba) : list rgba :=
  match c with
  | rounded_rectangle [(x0, y0); (x1, y1)] _ fill
  | rectangle [x0; y0; x1; y1] fill =>
      match ink fill with
      | Some p => fill_box x0 y0 x1 y1 p size data
      | None => data
      end
  | _ => data
  end.

Definition nearest (im : Image rgba) (size : Z * Z) (filter : resample) : list rgba :=
  (λ j, let x := (j mod size.1) * im_width im / size.1 in
        let y := (j / size.1) * im_height im / size.2 in
        default (0, 0, 0, 0) (im_data im !! Z.to_nat (y * im_width im + x)))
    <$> seqZ 0 (size.1 * size.2).

Definition nearest_of_last (provided_ims : list (Image rgba)) (size : Z * Z)
    : Image rgba :=
  let im := default (mkImage 0 0 []) (last provided_ims) in
  mkImage size.1 size.2 (nearest im size NEAREST).

Definition dump (im : Image rgba) : list Z :=
  im_width im :: im_height im :: (im_data im ≫= λ '(r, g, b, a), [r; g; b; a]).

Definition dump_all (frames : list (Image rgba)) : list Z :=
  Z.of_nat (length frames) :: (frames ≫= dump).

Definition flat_raster : Raster := {|
  blend := blend8;
  raster_L := flat_L;
  raster_RGBA := flat_RGBA;
  resample_pixels := nearest;
  ico_scaled := nearest_of_last;
  encode_png := dump;
  encode_ico := dump_all
|}.

End Reference.

(** * Proofs *)

(** ** Rounding *)

Module Float64Facts.
Import Float64.

Lemma rne_bounds n d : 0 < d → 2 * n - d ≤ 2 * (rne n d * d) ≤ 2 * n + d.
Proof.
  intros Hd. unfold rne.
  pose proof (Z.div_mod n d ltac:(lia)) as Hdm.
  pose proof (Z.mod_pos_bound n d Hd) as Hr.
  destruct (Z.compare_spec (2 * (n mod d)) d); [destruct (Z.even (n / d))|..]; nia.
Qed.

(** A tie that went up, or down, went to an even integer. *)
Lemma rne_tie_up n d :
  0 < d → 2 * (rne n d * d) = 2 * n + d → Z.even (rne n d) = true.
Proof.
  intros Hd. unfold rne.
  pose proof (Z.div_mod n d ltac:(lia)) as Hdm.
  pose proof (Z.mod_pos_bound n d Hd) as Hr.
  destruct (Z.compare_spec (2 * (n mod d)) d) as [He|Hl|Hg]; [|nia..].
  destruct (Z.even (n / d)) eqn:Hev; [nia|].
  intros _. rewrite Z.even_add, Hev. reflexivity.
Qed.

Lemma rne_tie_down n d :
  0 < d → 2 * (rne n d * d) = 2 * n - d → Z.even (rne n d) = true.
Proof.
  intros Hd. unfold rne.
  pose proof (Z.div_mod n d ltac:(lia)) as Hdm.
  pose proof (Z.mod_pos_bound n d Hd) as Hr.
  destruct (Z.compare_spec (2 * (n mod d)) d) as [He|Hl|Hg]; [|nia..].
  destruct (Z.even (n / d)) eqn:Hev; [done|nia].
Qed.

(** Rounding to the nearest integer is monotone in the fraction. *)
Lemma rne_mono n1 d1 n2 d2 :
  0 < d1 → 0 < d2 → n1 * d2 ≤ n2 * d1 → rne n1 d1 ≤ rne n2 d2.
Proof.
  intros H1 H2 Hle.
  pose proof (rne_bounds n1 d1 H1) as [_ Hu].
  pose proof (rne_bounds n2 d2 H2) as [Hl _].
  destruct (Z_le_gt_dec (rne n1 d1) (rne n2 d2)) as [|Hgt]; [done|exfalso].
  set (r1 := rne n1 d1) in *. set (r2 := rne n2 d2) in *.
  assert (Hu' : 2 * (r1 * d1) * d2 ≤ (2 * n1 + d1) * d2)
    by (apply Z.mul_le_mono_nonneg_r; lia).
  assert (Hl' : (2 * n2 - d2) * d1 ≤ 2 * (r2 * d2) * d1)
    by (apply Z.mul_le_mono_nonneg_r; lia).
  assert (Hdd : 0 < d1 * d2) by lia.
  assert (Hs : r1 = r2 + 1) by nia.
  assert (Ht1 : 2 * (r1 * d1) = 2 * n1 + d1) by nia.
  assert (Ht2 : 2 * (r2 * d2) = 2 * n2 - d2) by nia.
  apply rne_tie_up in Ht1; [|done]. apply rne_tie_down in Ht2; [|done].
  apply Z.even_spec in Ht1 as [k1 Hk1]. apply Z.even_spec in Ht2 as [k2 Hk2].
  lia.
Qed.

Lemma rne_exact k d : 0 < d → rne (k * d) d = k.
Proof.
  intros Hd. unfold rne. rewrite Z.div_mul, Z.mod_mul by lia.
  destruct (Z.compare_spec (2 * 0) d); lia.
Qed.

Lemma rne_ge k n d : 0 < d → k * d ≤ n → k ≤ rne n d.
Proof.
  intros Hd Hk. trans (rne (k * d) d); [by rewrite rne_exact|].
  apply rne_mono; [done..|nia].
Qed.

Lemma rne_le k n d : 0 < d → n ≤ k * d → rne n d ≤ k.
Proof.
  intros Hd Hk. trans (rne (k * d) d); [|by rewrite rne_exact].
  apply rne_mono; [done..|nia].
Qed.

Lemma rne_ext n1 d1 n2 d2 :
  0 < d1 → 0 < d2 → n1 * d2 = n2 * d1 → rne n1 d1 = rne n2 d2.
Proof. intros. apply Z.le_antisymm; apply rne_mono; lia. Qed.

Lemma log2_upper x : 0 ≤ x → x < 2 ^ (Z.log2 x + 1).
Proof.
  intros Hx. destruct (decide (x = 0)) as [->|Hne]; [done|].
  pose proof (Z.log2_spec x ltac:(lia)). unfold Z.succ in *. lia.
Qed.

(** Rounding to 53 bits is monotone in the fraction. *)
Lemma round_units_at_mono u a b c d :
  0 ≤ u → 0 ≤ a → 0 < b → 0 ≤ c → 0 < d → a * d ≤ c * b →
  round_units_at u a b ≤ round_units_at u c d.
Proof.
  intros Hu Ha Hb Hc Hd Hle. unfold round_units_at.
  assert (HU : 0 < 2 ^ u) by (apply Z.pow_pos_nonneg; lia).
  set (N1 := a * 2 ^ u). set (N2 := c * 2 ^ u).
  assert (HN1 : 0 ≤ N1) by (unfold N1; lia).
  assert (HN2 : 0 ≤ N2) by (unfold N2; lia).
  assert (HN : N1 * d ≤ N2 * b) by (unfold N1, N2; nia).
  assert (Hx1 : 0 ≤ N1 / b) by (apply Z.div_pos; lia).
  assert (Hq : N1 / b ≤ N2 / d).
  { apply Z.div_le_lower_bound; [done|].
    pose proof (Z.mul_div_le N1 b Hb). nia. }
  pose proof (Z.log2_le_mono _ _ Hq) as He.
  pose proof (Z.log2_nonneg (N1 / b)) as He1.
  set (e1 := Z.log2 (N1 / b)) in *. set (e2 := Z.log2 (N2 / d)) in *.
  destruct (decide (Z.max (e1 - 52) 0 = Z.max (e2 - 52) 0)) as [Hj|Hj].
  - rewrite <- Hj. set (j := Z.max (e1 - 52) 0).
    assert (Hp : 0 < 2 ^ j) by (apply Z.pow_pos_nonneg; lia).
    apply Z.mul_le_mono_nonneg_r; [lia|].
    apply rne_mono; nia.
  - assert (Hj1 : Z.max (e1 - 52) 0 < e2 - 52) by lia.
    assert (Hj2 : Z.max (e2 - 52) 0 = e2 - 52) by lia.
    rewrite Hj2. set (j1 := Z.max (e1 - 52) 0) in *. set (j2 := e2 - 52).
    assert (Hp1 : 0 < 2 ^ j1) by (apply Z.pow_pos_nonneg; lia).
    assert (Hp2 : 0 < 2 ^ j2) by (apply Z.pow_pos_nonneg; lia).
    trans (2 ^ e2).
    + trans (2 ^ (e1 + 1)); [|apply Z.pow_le_mono_r; lia].
      replace (e1 + 1) with ((e1 + 1 - j1) + j1) by lia.
      rewrite Z.pow_add_r by lia.
      apply Z.mul_le_mono_nonneg_r; [lia|].
      apply rne_le; [lia|].
      rewrite Z.mul_assoc, (Z.mul_comm _ b), <- Z.mul_assoc, <- Z.pow_add_r by lia.
      replace (e1 + 1 - j1 + j1) with (e1 + 1) by lia.
      pose proof (log2_upper _ Hx1) as Hup. fold e1 in Hup.
      pose proof (Z.mul_succ_div_gt N1 b Hb). unfold Z.succ in *. nia.
    + replace e2 with (52 + j2) at 1 by lia.
      rewrite Z.pow_add_r by lia.
      apply Z.mul_le_mono_nonneg_r; [lia|].
      apply rne_ge; [lia|].
      rewrite Z.mul_assoc, (Z.mul_comm _ d), <- Z.mul_assoc, <- Z.pow_add_r by lia.
      replace (52 + j2) with e2 by lia.
      assert (Hx2 : 0 < N2 / d).
      { destruct (decide (N2 / d ≤ 0)) as [Hz|]; [|lia].
        pose proof (Z.log2_nonpos _ Hz). lia. }
      pose proof (Z.log2_spec _ Hx2) as [Hlo _]. fold e2 in Hlo.
      pose proof (Z.mul_div_le N2 d Hd). nia.
Qed.

(** The result depends on the value of the fraction only. *)
Lemma round_units_at_ext u a b c d :
  0 ≤ u → 0 ≤ a → 0 < b → 0 ≤ c → 0 < d → a * d = c * b →
  round_units_at u a b = round_units_at u c d.
Proof. intros. apply Z.le_antisymm; apply round_units_at_mono; lia. Qed.

Lemma round_units_at_0 u den : 0 < den → round_units_at u 0 den = 0.
Proof.
  intros Hd. unfold round_units_at. rewrite Z.mul_0_l, Z.div_0_l by lia.
  change (Z.max (Z.log2 0 - 52) 0) with 0.
  pose proof (rne_exact 0 (den * 2 ^ 0) ltac:(lia)) as H0.
  rewrite Z.mul_0_l in H0. rewrite H0. done.
Qed.

Lemma round_units_at_nonneg u a b :
  0 ≤ u → 0 ≤ a → 0 < b → 0 ≤ round_units_at u a b.
Proof.
  intros. rewrite <- (round_units_at_0 u b) by done.
  apply round_units_at_mono; lia.
Qed.

(** A value with 53 significant bits in units of [2^-u] is rounded the
    same way in any finer unit. *)
Lemma round_units_at_finer u v num den :
  0 ≤ u ≤ v → 0 ≤ num → 0 < den → normal_at u num den = true →
  round_units_at v num den = 2 ^ (v - u) * round_units_at u num den.
Proof.
  intros Huv Hnum Hden Hn. unfold normal_at in Hn. apply Z.leb_le in Hn.
  unfold round_units_at.
  assert (HU : 0 < 2 ^ u) by (apply Z.pow_pos_nonneg; lia).
  assert (HD : 0 < 2 ^ (v - u)) by (apply Z.pow_pos_nonneg; lia).
  replace (2 ^ v) with (2 ^ u * 2 ^ (v - u))
    by (rewrite <- Z.pow_add_r by lia; f_equal; lia).
  set (N := num * 2 ^ u). set (D := 2 ^ (v - u)) in *.
  replace (num * (2 ^ u * D)) with (N * D) by (unfold N; lia).
  assert (Hx : 2 ^ 52 ≤ N / den).
  { apply Z.div_le_lower_bound; [done|]. unfold N. lia. }
  assert (Hx0 : 0 < N / den) by lia.
  pose proof (Z.log2_spec _ Hx0) as [Hlo Hhi]. unfold Z.succ in Hhi.
  pose proof (Z.log2_le_mono _ _ Hx) as He. rewrite Z.log2_pow2 in He by lia.
  set (e := Z.log2 (N / den)) in *.
  assert (HN : 0 ≤ N) by (unfold N; lia).
  assert (Hlog : Z.log2 (N * D / den) = e + (v - u)).
  { pose proof (Z.mul_div_le N den Hden).
    pose proof (Z.mul_succ_div_gt N den Hden). unfold Z.succ in *.
    assert (Hl1 : den * 2 ^ e ≤ N) by nia.
    assert (Hh1 : N < den * 2 ^ (e + 1)) by nia.
    apply Z.log2_unique; [lia|]. unfold Z.succ.
    replace (e + (v - u) + 1) with ((e + 1) + (v - u)) by lia.
    rewrite (Z.pow_add_r 2 e (v - u)), (Z.pow_add_r 2 (e + 1) (v - u)) by lia.
    fold D. split.
    - apply Z.div_le_lower_bound; [done|].
      rewrite Z.mul_assoc. apply Z.mul_le_mono_nonneg_r; lia.
    - apply Z.div_lt_upper_bound; [done|].
      rewrite Z.mul_assoc. apply Zmult_lt_compat_r; lia. }
  rewrite Hlog.
  replace (Z.max (e + (v - u) - 52) 0) with ((e - 52) + (v - u)) by lia.
  replace (Z.max (e - 52) 0) with (e - 52) by lia.
  rewrite !Z.pow_add_r by lia. fold D.
  assert (Hp : 0 < 2 ^ (e - 52)) by (apply Z.pow_pos_nonneg; lia).
  rewrite (rne_ext (N * D) (den * (2 ^ (e - 52) * D)) N (den * 2 ^ (e - 52)))
    by nia.
  lia.
Qed.

Lemma one_unit_pos : 0 < one_unit.
Proof. by apply Z.pow_pos_nonneg. Qed.

Lemma one_unit_split : one_unit = 2 ^ (denorm_exp - small_exp) * 2 ^ small_exp.
Proof. unfold one_unit. by rewrite <- Z.pow_add_r. Qed.

Lemma round_units_mono a b c d :
  0 ≤ a → 0 < b → 0 ≤ c → 0 < d → a * d ≤ c * b →
  round_units a b ≤ round_units c d.
Proof. by apply round_units_at_mono. Qed.

Lemma round_units_nonneg a b : 0 ≤ a → 0 < b → 0 ≤ round_units a b.
Proof. by apply round_units_at_nonneg. Qed.

(** The quotient and its 255-fold, both rounded: monotone in the
    fraction, and computable in units of [2^-64]. *)
Lemma scaled_units_mono a b c d :
  0 ≤ a → 0 < b → 0 ≤ c → 0 < d → a * d ≤ c * b →
  scaled_units a b ≤ scaled_units c d.
Proof.
  intros Ha Hb Hc Hd Hle. unfold scaled_units.
  pose proof one_unit_pos as HU.
  pose proof (round_units_nonneg a b Ha Hb) as H1.
  pose proof (round_units_mono a b c d Ha Hb Hc Hd Hle) as H2.
  apply round_units_mono; [nia| nia | nia | nia |].
  apply Z.mul_le_mono_nonneg_r; [nia|].
  apply Z.mul_le_mono_nonneg_l; [nia|done].
Qed.

Lemma scaled_units_nonneg a b : 0 ≤ a → 0 < b → 0 ≤ scaled_units a b.
Proof.
  intros Ha Hb. unfold scaled_units. pose proof one_unit_pos.
  pose proof (round_units_nonneg a b Ha Hb).
  apply round_units_nonneg; nia.
Qed.

Lemma scaled_units_small num den :
  0 ≤ num → 0 < den → scaled_normal num den = true →
  scaled_units num den = 2 ^ (denorm_exp - small_exp) * scaled_small num den.
Proof.
  intros Hnum Hden [Hn1 Hn2]%andb_true_iff. unfold scaled_units, scaled_small.
  unfold round_units.
  rewrite (round_units_at_finer small_exp denorm_exp num den) by done.
  set (z := round_units_at small_exp num den) in *.
  assert (Hz : 0 ≤ z) by (by apply round_units_at_nonneg).
  assert (HS : 0 < 2 ^ small_exp) by (by apply Z.pow_pos_nonneg).
  rewrite <- (round_units_at_finer small_exp denorm_exp (255 * z) (2 ^ small_exp))
    by (done || lia).
  set (D := 2 ^ (denorm_exp - small_exp)).
  assert (HD : 0 < D) by (by apply Z.pow_pos_nonneg).
  pose proof one_unit_pos as HU. pose proof one_unit_split as Hsplit. fold D in Hsplit.
  apply round_units_at_ext; [done | nia | nia | nia | done |].
  rewrite Hsplit. lia.
Qed.

Lemma bracket_all : forallb bracket_ok (seqZ 0 255) = true.
Proof. vm_compute. reflexivity. Qed.

Lemma bracket q : 0 ≤ q < 255 → bracket_ok q = true.
Proof.
  intros Hq. pose proof bracket_all as Hall.
  rewrite forallb_forall in Hall. apply Hall.
  apply list_elem_of_In, elem_of_seqZ. lia.
Qed.

(** The heart of the mask computation: for a denominator that fits in
    33 bits, the two roundings never carry [255 * (k / n)] across an
    integer. *)
Lemma scaled_units_floor k n :
  0 ≤ k < n → n ≤ 2 ^ 32 →
  (255 * k / n) * one_unit ≤ scaled_units k n < (255 * k / n + 1) * one_unit.
Proof.
  intros Hk Hn. set (q := 255 * k / n).
  assert (Hn0 : 0 < n) by lia.
  pose proof (Z.mul_div_le (255 * k) n Hn0) as Hq1.
  pose proof (Z.mul_succ_div_gt (255 * k) n Hn0) as Hq2.
  fold q in Hq1, Hq2. unfold Z.succ in Hq2.
  assert (Hq0 : 0 ≤ q) by (apply Z.div_pos; lia).
  assert (Hq255 : q < 255) by (apply Z.div_lt_upper_bound; lia).
  pose proof (bracket q ltac:(lia)) as Hb. unfold bracket_ok in Hb.
  apply andb_true_iff in Hb as [[Hlo Hnu]%andb_true_iff Hhi%Z.ltb_lt].
  pose proof one_unit_pos as HU. pose proof one_unit_split as Hsplit.
  set (D := 2 ^ (denorm_exp - small_exp)) in *.
  assert (HD : 0 < D) by (by apply Z.pow_pos_nonneg).
  split.
  - apply orb_true_iff in Hlo as [->%Z.eqb_eq | [Hnl Hlo%Z.leb_le]%andb_true_iff].
    { rewrite Z.mul_0_l. apply scaled_units_nonneg; lia. }
    trans (scaled_units q 255); [|apply scaled_units_mono; lia].
    rewrite scaled_units_small by (done || lia). fold D. rewrite Hsplit. nia.
  - set (a := upper_num q) in *.
    assert (Ha255 : (q + 1) * 2 ^ 40 - 1 < 255 * (a + 1)).
    { pose proof (Z.mul_succ_div_gt ((q + 1) * 2 ^ 40 - 1) 255 ltac:(lia)) as Hup.
      unfold Z.succ in Hup. fold (upper_num q) in Hup. fold a in Hup. lia. }
    assert (Ha0 : 0 ≤ a) by (apply Z.div_pos; lia).
    assert (Hka : k * 2 ^ 40 ≤ a * n) by nia.
    eapply Z.le_lt_trans; [apply (scaled_units_mono k n a (2 ^ 40)); lia|].
    rewrite scaled_units_small by (done || lia). fold D. rewrite Hsplit. nia.
Qed.

Lemma round_units_1 : round_units 1 1 = one_unit.
Proof. vm_compute. reflexivity. Qed.

Lemma of_int_255 : of_int 255 = Some (Float (255 * one_unit)).
Proof. vm_compute. reflexivity. Qed.

Lemma overflow_units_large : 256 * one_unit < overflow_units.
Proof. vm_compute. reflexivity. Qed.

Lemma round_ne_nonneg a b :
  0 ≤ a → 0 < b → round_units a b < overflow_units →
  round_ne a b = Some (Float (round_units a b)).
Proof.
  intros Ha Hb Hlt. unfold round_ne. rewrite Z.abs_eq by done.
  apply Z.ltb_lt in Hlt. rewrite Hlt. do 2 f_equal.
  destruct (decide (a = 0)) as [->|Hne].
  - unfold round_units. by rewrite round_units_at_0.
  - rewrite Z.sgn_pos by lia. lia.
Qed.

(** [int(255 * (k / n))] is the integer part of the exact [255 * k / n]. *)
Lemma int_scaled_quotient k n :
  0 ≤ k < n → n ≤ 2 ^ 32 →
  (p ← true_div k n; v ← int_mul 255 p; Some (to_int v)) = Some (255 * k / n).
Proof.
  intros Hk Hn. pose proof one_unit_pos as HU.
  pose proof overflow_units_large as Hov.
  pose proof (scaled_units_floor k n Hk Hn) as [Hlo Hhi].
  assert (Hq255 : 255 * k / n < 255) by (apply Z.div_lt_upper_bound; lia).
  assert (Hz1 : round_units k n ≤ one_unit).
  { rewrite <- round_units_1. apply round_units_mono; lia. }
  pose proof (round_units_nonneg k n ltac:(lia) ltac:(lia)) as Hz0.
  unfold true_div.
  destruct (Z.eqb_spec n 0) as [|_]; [lia|].
  destruct (Z.ltb_spec 0 n) as [_|]; [|lia].
  rewrite round_ne_nonneg by lia. cbn [mbind option_bind].
  unfold int_mul. rewrite of_int_255. cbn [mbind option_bind].
  unfold mul. cbn [units].
  assert (Hs : round_units (255 * one_unit * round_units k n) (one_unit * one_unit)
               = scaled_units k n) by done.
  rewrite round_ne_nonneg by (rewrite ?Hs; nia).
  cbn [mbind option_bind]. rewrite Hs. f_equal. unfold to_int. cbn [units].
  pose proof (scaled_units_nonneg k n ltac:(lia) ltac:(lia)).
  rewrite Z.quot_div_nonneg by lia.
  symmetry. apply Z.div_unique with (r := scaled_units k n - 255 * k / n * one_unit); lia.
Qed.

(** The operations agree with the Standard Library's binary64
    ([SFdiv], [SFmul] at precision 53) where both are run: on quotients of
    the 256x256 canvas, of the glow loop, and on some that do not round to
    themselves, on subnormal quotients and on the largest double. *)
Lemma true_div_matches_binary64 :
  forallb (λ ab, div_agrees ab.1 ab.2)
    [(0, 512); (1, 512); (255, 512); (510, 512); (50, 5); (50, 4); (50, 3);
     (1, 3); (2, 3); (1, 10); (1, 49); (7, 255); (254, 255);
     (1, 2 ^ 1023); (1, 2 ^ 1023 + 2 ^ 1000); (5, 3 * 2 ^ 1022);
     (2 ^ 1024 - 2 ^ 971, 1)] = true.
Proof. vm_compute. reflexivity. Qed.

Lemma int_mul_matches_binary64 :
  forallb (λ ab, scaled_div_agrees 255 ab.1 ab.2)
    [(0, 512); (1, 512); (510, 512); (1, 3); (7, 255); (254, 255)] = true
  ∧ scaled_div_agrees 49 1 49 = true.
Proof. split; vm_compute; reflexivity. Qed.

(** As in Python, [49 * (1 / 49)] is not [1.0], while [255 * (7 / 255)]
    is [7.0]. *)
Lemma rounding_is_visible :
  (to_int <$> (true_div 1 49 ≫= int_mul 49)) = Some 0 ∧
  (to_int <$> (true_div 7 255 ≫= int_mul 255)) = Some 7.
Proof. split; vm_compute; reflexivity. Qed.

End Float64Facts.


(** ** Loops that append *)

Module LoopFacts.
Import Loops.

(** A loop that appends one computed value per round. *)
Lemma for_each_append {A B} (f : A → option B) (g : A → B) xs acc :
  (∀ x, x ∈ xs → f x = Some (g x)) →
  for_each xs (λ x acc, v ← f x; Some (acc ++ [v])) acc = Some (acc ++ (g <$> xs)).
Proof.
  revert acc. induction xs as [|x xs IH]; intros acc Hf; simpl.
  - by rewrite app_nil_r.
  - rewrite (Hf x) by set_solver. simpl.
    rewrite IH by (intros; apply Hf; set_solver).
    by rewrite <- app_assoc.
Qed.

(** A loop whose rounds each append a row. *)
Lemma for_each_rows {A B} (body : A → list B → option (list B)) (row : A → list B) xs acc :
  (∀ x acc, x ∈ xs → body x acc = Some (acc ++ row x)) →
  for_each xs body acc = Some (acc ++ (xs ≫= row)).
Proof.
  revert acc. induction xs as [|x xs IH]; intros acc Hb; cbn [for_each].
  - by rewrite app_nil_r.
  - rewrite (Hb x) by set_solver. cbn [mbind option_bind].
    rewrite IH by (intros; apply Hb; set_solver).
    by rewrite bind_cons, <- app_assoc.
Qed.

(** A loop that makes one call per round on an object it keeps. *)
Lemma for_each_calls {A C S} (call : A → option C) (apply : C → S → S) xs s cs :
  mapM call xs = Some cs →
  for_each xs (λ x s, c ← call x; Some (apply c s)) s
  = Some (foldl (λ s c, apply c s) s cs).
Proof.
  revert s cs. induction xs as [|x xs IH]; intros s cs Hcs.
  - by injection Hcs as <-.
  - cbn [mapM] in Hcs.
    apply bind_Some in Hcs as (c & Hc & Hcs).
    apply bind_Some in Hcs as (cs' & Hcs' & Hcs). injection Hcs as <-.
    cbn [for_each]. rewrite Hc. cbn [mbind option_bind foldl]. by apply IH.
Qed.

(** A loop that only fails where its body fails. *)
Lemma for_each_total {A S} (body : A → S → option S) xs s :
  (∀ x s, x ∈ xs → is_Some (body x s)) → is_Some (for_each xs body s).
Proof.
  revert s. induction xs as [|x xs IH]; intros s Hb; simpl; [by eexists|].
  destruct (Hb x s ltac:(set_solver)) as [s' ->]. simpl.
  apply IH. intros; apply Hb; set_solver.
Qed.

(** What every round preserves holds at the end. *)
Lemma for_each_invariant {A S} (P : S → Prop) (body : A → S → option S) xs s s' :
  (∀ x s s', body x s = Some s' → P s → P s') →
  P s → for_each xs body s = Some s' → P s'.
Proof.
  intros Hb. revert s. induction xs as [|x xs IH]; intros s Hs; cbn [for_each].
  - by intros [= <-].
  - destruct (body x s) as [s1|] eqn:Hx; [|discriminate]. cbn [mbind option_bind].
    apply IH. by eapply Hb.
Qed.

Section rows.
Context {A B : Type} (row : A → list B) (w : nat).

Lemma length_rows (l : list A) :
  (∀ a, a ∈ l → length (row a) = w) → length (l ≫= row) = (length l * w)%nat.
Proof.
  induction l as [|a l IH]; intros Hw; [done|].
  rewrite bind_cons, length_app, Hw, IH by set_solver.
  simpl. lia.
Qed.

(** Rows of equal length laid end to end: the element [j] of row [i]. *)
Lemma lookup_rows (l : list A) i j a :
  (∀ a, a ∈ l → length (row a) = w) →
  l !! i = Some a → (j < w)%nat →
  (l ≫= row) !! (i * w + j)%nat = row a !! j.
Proof.
  revert i. induction l as [|a0 l IH]; intros i Hw Hi Hj; [done|].
  rewrite bind_cons. destruct i as [|i]; simpl in Hi.
  - simplify_eq. apply lookup_app_l. rewrite Hw by set_solver. lia.
  - rewrite lookup_app_r by (rewrite Hw by set_solver; lia).
    rewrite Hw by set_solver.
    replace (S i * w + j - w)%nat with (i * w + j)%nat by lia.
    apply IH; [|done..]. intros; apply Hw; set_solver.
Qed.
End rows.

(** A loop that appends [f s] for each [s] builds the mapped list. *)
Lemma foldl_append {A B} (f : A → B) (l : list A) (acc : list B) :
  foldl (λ acc s, acc ++ [f s]) acc l = acc ++ (f <$> l).
Proof.
  revert acc. induction l as [|a l IH]; intros acc; cbn [foldl fmap list_fmap].
  - by rewrite app_nil_r.
  - rewrite IH. by rewrite <- app_assoc.
Qed.

Lemma range3_5_0 : range3 5 0 (-1) = [5; 4; 3; 2; 1].
Proof. reflexivity. Qed.

End LoopFacts.

(** ** The gradient mask *)

Module GradientFacts.
Import Float64 Float64Facts Pillow Loops LoopFacts Gradient.

Lemma truncated_blend_range width height x y :
  0 ≤ x < width → 0 ≤ y < height →
  0 ≤ truncated_blend width height x y < 255.
Proof.
  intros Hx Hy. unfold truncated_blend. split.
  - apply Z.div_pos; lia.
  - apply Z.div_lt_upper_bound; lia.
Qed.

(** On sizes Pillow accepts, [int(255 * p)] never raises and is the
    integer part of the exact product. *)
Lemma mask_value_exact width height x y :
  width ≤ INT_MAX → height ≤ INT_MAX →
  0 ≤ x < width → 0 ≤ y < height →
  mask_value width height x y = Some (truncated_blend width height x y).
Proof.
  intros Hw Hh Hx Hy. unfold mask_value, blend_factor, truncated_blend.
  apply int_scaled_quotient; [lia|].
  unfold INT_MAX in *. lia.
Qed.

Lemma mask_data_exact width height :
  width ≤ INT_MAX → height ≤ INT_MAX →
  mask_data width height = Some (exact_rows width height).
Proof.
  intros Hw Hh. unfold mask_data, exact_rows.
  rewrite (for_each_rows _
    (λ y, (λ x, truncated_blend width height x y) <$> range width)); [done|].
  intros y acc [Hy0 Hy1]%elem_of_seqZ. unfold mask_row.
  apply for_each_append. intros x [Hx0 Hx1]%elem_of_seqZ.
  apply mask_value_exact; lia.
Qed.

Lemma length_exact_rows width height :
  0 ≤ width → 0 ≤ height →
  Z.of_nat (length (exact_rows width height)) = width * height.
Proof.
  intros Hw Hh. unfold exact_rows.
  rewrite (length_rows _ (Z.to_nat width)).
  - unfold range. rewrite length_seqZ. nia.
  - intros. unfold range. by rewrite length_fmap, length_seqZ.
Qed.

Lemma lookup_exact_rows width height x y :
  0 ≤ x < width → 0 ≤ y < height →
  exact_rows width height !! Z.to_nat (y * width + x)
  = Some (truncated_blend width height x y).
Proof.
  intros Hx Hy. unfold exact_rows.
  replace (Z.to_nat (y * width + x))
    with (Z.to_nat y * Z.to_nat width + Z.to_nat x)%nat by nia.
  rewrite (lookup_rows _ (Z.to_nat width) _ _ _ y).
  - rewrite list_lookup_fmap. unfold range.
    rewrite lookup_seqZ_lt by lia. simpl. do 2 f_equal. lia.
  - intros. unfold range. by rewrite length_fmap, length_seqZ.
  - unfold range. rewrite lookup_seqZ_lt by lia. f_equal. lia.
  - lia.
Qed.

(** What [gradient_mask] is when it is made. *)
Lemma gradient_mask_made width height mask :
  gradient_mask width height = Some mask →
  0 ≤ width ≤ INT_MAX ∧ 0 ≤ height ≤ INT_MAX ∧
  im_width mask = width ∧ im_height mask = height ∧
  ∃ rest, im_data mask = (clip8 <$> exact_rows width height) ++ rest.
Proof.
  unfold gradient_mask, new_L. intros Hm.
  destruct (size_ok (width, height)) eqn:Hok; [|done].
  unfold size_ok in Hok. cbn [fst snd] in Hok.
  apply andb_true_iff in Hok as [[[H1%Z.leb_le H2%Z.leb_le]%andb_true_iff
    H3%Z.leb_le]%andb_true_iff H4%Z.leb_le].
  assert (H2' : width ≤ INT_MAX).
  { change (INT_MAX / 4 - 1) with 536870910 in H2. unfold INT_MAX. lia. }
  simpl in Hm. rewrite mask_data_exact in Hm by done. simpl in Hm.
  unfold putdata in Hm. simpl in Hm.
  rewrite length_exact_rows in Hm by done.
  rewrite Z.leb_refl in Hm. simplify_eq. simpl. eauto 10.
Qed.

Lemma gradient_mask_total width height :
  0 ≤ width ≤ 536870910 → 0 ≤ height ≤ INT_MAX →
  is_Some (gradient_mask width height).
Proof.
  intros Hw Hh. unfold gradient_mask, new_L, size_ok. cbn [fst snd].
  change (INT_MAX / 4 - 1) with 536870910.
  destruct (Z.leb_spec 0 width); [|lia].
  destruct (Z.leb_spec width 536870910); [|lia].
  destruct (Z.leb_spec 0 height); [|lia].
  destruct (Z.leb_spec height INT_MAX); [|lia].
  assert (Hw' : width ≤ INT_MAX) by (unfold INT_MAX; lia).
  simpl. rewrite mask_data_exact by lia. simpl.
  unfold putdata. simpl. rewrite length_exact_rows by lia.
  rewrite Z.leb_refl. by eexists.
Qed.

Lemma gradient_mask_pixel width height mask x y :
  gradient_mask width height = Some mask →
  0 ≤ x < width → 0 ≤ y < height →
  getpixel mask (x, y) = Some (truncated_blend width height x y).
Proof.
  intros (Hw & Hh & Hmw & Hmh & rest & Hdata)%gradient_mask_made Hx Hy.
  unfold getpixel. rewrite Hmw, Hmh, Hdata. simpl.
  destruct (Z.leb_spec 0 x); [|lia]. destruct (Z.ltb_spec x width); [|lia].
  destruct (Z.leb_spec 0 y); [|lia]. destruct (Z.ltb_spec y height); [|lia].
  simpl.
  pose proof (lookup_exact_rows width height x y Hx Hy) as Hl.
  rewrite lookup_app_l.
  - rewrite list_lookup_fmap, Hl. simpl. f_equal.
    pose proof (truncated_blend_range width height x y Hx Hy).
    unfold clip8. lia.
  - rewrite length_fmap. by apply lookup_lt_Some in Hl.
Qed.

(** Every pixel of a gradient mask holds a value below 255. *)
Lemma gradient_mask_bounded width height mask x y v :
  gradient_mask width height = Some mask →
  getpixel mask (x, y) = Some v → 0 ≤ v < 255.
Proof.
  intros Hm Hv.
  pose proof (gradient_mask_made _ _ _ Hm) as (_ & _ & Hmw & Hmh & _).
  assert (Hxy : (0 ≤ x < width) ∧ (0 ≤ y < height)).
  { unfold getpixel in Hv. rewrite Hmw, Hmh in Hv. simpl in Hv.
    destruct (Z.leb_spec 0 x), (Z.ltb_spec x width),
      (Z.leb_spec 0 y), (Z.ltb_spec y height); simpl in Hv; (done || lia). }
  destruct Hxy as [Hx Hy].
  rewrite (gradient_mask_pixel _ _ _ x y Hm Hx Hy) in Hv. simplify_eq.
  by apply truncated_blend_range.
Qed.

(** C1: in every gradient the generator makes, for width >= 1 and
    height >= 1, the mask holds at each in-bounds pixel (x, y) the value
    int(255 * p) the code computes for it in floating point, and that
    value is the integer truncation of the exact
    255 * (x + y) / (width + height); the value at (0, 0) is 0 and the
    value at (width - 1, height - 1) is the truncation the formula gives
    there. *)
Theorem gradient_mask_truncates width height mask :
  1 ≤ width → 1 ≤ height →
  gradient_mask width height = Some mask →
  (∀ x y, 0 ≤ x < width → 0 ≤ y < height →
     getpixel mask (x, y) = mask_value width height x y ∧
     mask_value width height x y = Some (255 * (x + y) / (width + height))) ∧
  getpixel mask (0, 0) = Some 0 ∧
  getpixel mask (width - 1, height - 1)
  = Some (255 * (width + height - 2) / (width + height)).
Proof.
  intros Hw Hh Hm.
  pose proof (gradient_mask_made _ _ _ Hm) as (Hw' & Hh' & _).
  split; [|split].
  - intros x y Hx Hy.
    rewrite (gradient_mask_pixel _ _ _ _ _ Hm Hx Hy).
    by rewrite mask_value_exact by lia.
  - rewrite (gradient_mask_pixel _ _ _ 0 0 Hm) by lia.
    unfold truncated_blend. by rewrite Z.div_0_l by lia.
  - rewrite (gradient_mask_pixel _ _ _ _ _ Hm) by lia.
    unfold truncated_blend. do 3 f_equal. lia.
Qed.

Lemma gradient_mask_truncates_witness :
  gradient_mask 2 2 = Some (mkImage 2 2 [0; 63; 63; 127]) ∧
  getpixel (mkImage 2 2 [0; 63; 63; 127]) (1, 1) = Some (255 * (2 + 2 - 2) / (2 + 2)).
Proof.
  assert (Hm : gradient_mask 2 2 = Some (mkImage 2 2 [0; 63; 63; 127]))
    by (vm_compute; reflexivity).
  split; [exact Hm|].
  exact (proj2 (proj2 (gradient_mask_truncates 2 2 _ ltac:(lia) ltac:(lia) Hm))).
Defined.

(** C10: in every gradient the generator makes, for width >= 1 and
    height >= 1, each in-bounds mask value is strictly below 255, so the
    end color is nowhere pasted at full opacity; on the 256x256 canvas the
    largest mask value is 254, reached in the last pixel. *)
Theorem gradient_mask_below_255 :
  (∀ width height mask x y,
     1 ≤ width → 1 ≤ height →
     gradient_mask width height = Some mask →
     0 ≤ x < width → 0 ≤ y < height →
     ∃ v, getpixel mask (x, y) = Some v ∧ mask_value width height x y = Some v
          ∧ 0 ≤ v < 255) ∧
  (∃ mask, gradient_mask 256 256 = Some mask ∧
     getpixel mask (255, 255) = Some 254 ∧
     ∀ x y v, getpixel mask (x, y) = Some v → v ≤ 254).
Proof.
  split.
  - intros width height mask x y Hw Hh Hm Hx Hy.
    pose proof (gradient_mask_made _ _ _ Hm) as (Hw' & Hh' & _).
    exists (truncated_blend width height x y). split; [|split].
    + by apply gradient_mask_pixel.
    + apply mask_value_exact; lia.
    + by apply truncated_blend_range.
  - assert (Hw : 0 ≤ 256 ≤ 536870910) by lia.
    assert (Hh : 0 ≤ 256 ≤ INT_MAX) by (unfold INT_MAX; lia).
    pose proof (gradient_mask_total 256 256 Hw Hh) as Hsome.
    destruct Hsome as [mask Hm].
    exists mask. split; [exact Hm|]. split.
    + rewrite (gradient_mask_pixel _ _ _ 255 255 Hm) by lia. reflexivity.
    + intros x y v Hv. pose proof (gradient_mask_bounded _ _ _ _ _ _ Hm Hv). lia.
Qed.

Lemma gradient_mask_below_255_witness :
  gradient_mask 2 1 = Some (mkImage 2 1 [0; 85]) ∧
  ∃ v, getpixel (mkImage 2 1 [0; 85]) (1, 0) = Some v ∧ 0 ≤ v < 255.
Proof.
  assert (Hm : gradient_mask 2 1 = Some (mkImage 2 1 [0; 85]))
    by (vm_compute; reflexivity).
  split; [exact Hm|].
  destruct (proj1 gradient_mask_below_255 2 1 _ 1 0
              ltac:(lia) ltac:(lia) Hm ltac:(lia) ltac:(lia)) as (v & Hv & _ & Hr).
  exists v. split; [exact Hv | exact Hr].
Defined.

(** Without the limit on sizes the bound would not hold: on a row of
    [2^55 - 1] pixels the quotient [(2^55 - 2) / 2^55] rounds to [1.0]. *)
Lemma mask_value_beyond_int_max :
  mask_value (2 ^ 55 - 1) 1 (2 ^ 55 - 2) 0 = Some 255.
Proof. vm_compute. reflexivity. Qed.

End GradientFacts.


(** ** The glyph strokes, the masks' geometry and the size list *)

Module StrokeFacts.
Import Float64 Pillow Loops LoopFacts Icon.

Lemma glow_rounds_eq : glow_rounds = [5; 4; 3; 2; 1].
Proof. reflexivity. Qed.

(** [int(50 / i)] in the five rounds is the integer quotient. *)
Lemma glow_alpha_floor i : 1 ≤ i ≤ 5 → glow_alpha i = Some (50 / i).
Proof.
  intros Hi.
  assert (Hc : i = 1 ∨ i = 2 ∨ i = 3 ∨ i = 4 ∨ i = 5) by lia.
  destruct Hc as [->|[->|[->|[->| ->]]]]; vm_compute; reflexivity.
Qed.

(** C2, as the code has it: in the glow loops of both glyphs the rounds
    are i = 5, 4, 3, 2, 1; the stroke of round i has alpha int(50 / i),
    the truncation of 50 / i (10, 12, 16, 25, 50); the chevron stroke has
    width arrow_width + i * 4, and the cursor stroke is the cursor
    rectangle grown by i * 3 pixels on its four sides. *)
Theorem glow_round_stroke i :
  1 ≤ i ≤ 5 →
  i ∈ glow_rounds ∧
  chevron_glow_call i
  = Some (line [p1; p2; p3] (color_cyan ++ [50 / i]) (arrow_width + i * 4) "curve") ∧
  cursor_glow_call i
  = Some (rectangle [cursor_x - i * 3; cursor_y - i * 3;
                     cursor_x + cursor_w + i * 3; cursor_y + cursor_h + i * 3]
            (color_purple ++ [50 / i])).
Proof.
  intros Hi. split; [|split].
  - rewrite glow_rounds_eq, !elem_of_cons. lia.
  - unfold chevron_glow_call. by rewrite glow_alpha_floor.
  - unfold cursor_glow_call. by rewrite glow_alpha_floor.
Qed.

Lemma glow_round_stroke_witness :
  chevron_glow_call 3
  = Some (line [(68, 68); (128, 128); (68, 188)] [0; 212; 255; 16] 32 "curve") ∧
  cursor_glow_call 3 = Some (rectangle [149; 159; 217; 192] [189; 0; 255; 16]).
Proof.
  pose proof (glow_round_stroke 3 ltac:(lia)) as (_ & Hc & Hr).
  split; [exact Hc | exact Hr].
Defined.

(** C2 as stated fails in round 3: the stroke has alpha 16, and 50 / 3
    rounds to 17. *)
Lemma glow_alpha_not_rounded :
  glow_alpha 3 = Some 16 ∧ rounded_alpha 3 = Some 17 ∧
  ¬ (∀ i, 1 ≤ i ≤ 5 → glow_alpha i = rounded_alpha i).
Proof.
  assert (Ha : glow_alpha 3 = Some 16) by (vm_compute; reflexivity).
  assert (Hr : rounded_alpha 3 = Some 17) by (vm_compute; reflexivity).
  split; [done|]. split; [done|].
  intros Hall. specialize (Hall 3 ltac:(lia)). congruence.
Qed.

(** The calls of the two glow loops. *)
Lemma glow_calls_chevron :
  mapM chevron_glow_call glow_rounds
  = Some ((λ '(i, a), line [p1; p2; p3] (color_cyan ++ [a]) (arrow_width + i * 4) "curve")
            <$> [(5, 10); (4, 12); (3, 16); (2, 25); (1, 50)]).
Proof. vm_compute. reflexivity. Qed.

Lemma glow_calls_cursor :
  mapM cursor_glow_call glow_rounds
  = Some ((λ '(i, a), rectangle [cursor_x - i * 3; cursor_y - i * 3;
                                 cursor_x + cursor_w + i * 3; cursor_y + cursor_h + i * 3]
                        (color_purple ++ [a]))
            <$> [(5, 10); (4, 12); (3, 16); (2, 25); (1, 50)]).
Proof. vm_compute. reflexivity. Qed.

Lemma chevron_strokes_eq :
  chevron_strokes
  = Some (((λ '(i, a), line [p1; p2; p3] (color_cyan ++ [a]) (arrow_width + i * 4) "curve")
             <$> [(5, 10); (4, 12); (3, 16); (2, 25); (1, 50)])
          ++ [chevron_main_call]).
Proof. vm_compute. reflexivity. Qed.

Lemma cursor_strokes_eq :
  cursor_strokes
  = Some (((λ '(i, a), rectangle [cursor_x - i * 3; cursor_y - i * 3;
                                  cursor_x + cursor_w + i * 3; cursor_y + cursor_h + i * 3]
                         (color_purple ++ [a]))
             <$> [(5, 10); (4, 12); (3, 16); (2, 25); (1, 50)])
          ++ [cursor_main_call]).
Proof. vm_compute. reflexivity. Qed.

(** C5: the bounding box of the inner rounded mask is that of the outer
    one moved inwards by border_width = 8 pixels on each of its four
    sides, and its corner radius, 55, is the outer one, 60, minus 5. *)
Theorem inner_mask_geometry :
  call_box outer_mask_call = [(padding, padding); (size - padding, size - padding)] ∧
  call_box inner_mask_call
  = [(padding + border_width, padding + border_width);
     (size - padding - border_width, size - padding - border_width)] ∧
  call_box inner_mask_call = shrink_box border_width (call_box outer_mask_call) ∧
  border_width = 8 ∧
  call_radius outer_mask_call = 60 ∧
  call_radius inner_mask_call = 55 ∧
  call_radius inner_mask_call = call_radius outer_mask_call - 5.
Proof. repeat split. Qed.

End StrokeFacts.

(** ** Images *)

Module PillowFacts.
Import Pillow.

Lemma size_ok_iff size :
  size_ok size = true ↔ 0 ≤ size.1 ≤ 536870910 ∧ 0 ≤ size.2 ≤ INT_MAX.
Proof.
  unfold size_ok. change (INT_MAX / 4 - 1) with 536870910.
  rewrite !andb_true_iff, !Z.leb_le. tauto.
Qed.

(** The widest image the core makes, and colors at the edges of what it
    takes: channels are clipped, a tuple of one int is that int, a pair
    is refused. *)
Lemma size_ok_widest :
  size_ok (536870910, 0) = true ∧ size_ok (536870911, 0) = false
  ∧ size_ok (0, 2 ^ 31 - 1) = true ∧ size_ok (0, 2 ^ 31) = false
  ∧ size_ok (-1, 0) = false.
Proof. repeat split. Qed.

Lemma ink_edges :
  ink [300; -5; 0] = Some (255, 0, 0, 255) ∧ ink [5] = Some (5, 0, 0, 0)
  ∧ ink [0; 0; 0; 300] = Some (0, 0, 0, 255) ∧ ink [1; 2] = None
  ∧ ink [] = None ∧ ink [0; 2 ^ 31; 0] = None.
Proof. repeat split. Qed.

Lemma size_ok_bounds size :
  size_ok size = true → 0 ≤ size.1 ≤ INT_MAX ∧ 0 ≤ size.2 ≤ INT_MAX.
Proof. intros [Hw Hh]%size_ok_iff. unfold INT_MAX in *. lia. Qed.

Lemma new_L_made size v im :
  new_L size v = Some im →
  im_size im = size ∧ im_data im = replicate (Z.to_nat (size.1 * size.2)) (clip8 v).
Proof.
  unfold new_L. destruct (size_ok size && is_long_long v); [|discriminate].
  intros [= <-]. by destruct size.
Qed.

Lemma new_L_eq size v im :
  new_L size v = Some im →
  im = mkImage size.1 size.2 (replicate (Z.to_nat (size.1 * size.2)) (clip8 v)).
Proof.
  unfold new_L. destruct (size_ok size && is_long_long v); [|discriminate].
  by intros [= <-].
Qed.

Lemma new_RGBA_eq size c im :
  new_RGBA size c = Some im →
  ∃ p, ink c = Some p
       ∧ im = mkImage size.1 size.2 (replicate (Z.to_nat (size.1 * size.2)) p).
Proof.
  unfold new_RGBA. destruct (size_ok size); [|discriminate].
  destruct (ink c) as [p|]; [|discriminate].
  intros [= <-]. by exists p.
Qed.

Lemma getpixel_outside {A} (im : Image A) x y :
  ¬ (0 ≤ x < im_width im ∧ 0 ≤ y < im_height im) → getpixel im (x, y) = None.
Proof.
  intros Hout. unfold getpixel. cbn [fst snd].
  destruct (Z.leb_spec 0 x), (Z.ltb_spec x (im_width im)),
    (Z.leb_spec 0 y), (Z.ltb_spec y (im_height im)); cbn [andb];
    (reflexivity || lia).
Qed.

Lemma new_L_total size v :
  size_ok size = true → is_long_long v = true → is_Some (new_L size v).
Proof. unfold new_L. intros -> ->. by eexists. Qed.

Lemma new_RGBA_made size c im :
  new_RGBA size c = Some im →
  ∃ p, ink c = Some p ∧ im_size im = size
       ∧ im_data im = replicate (Z.to_nat (size.1 * size.2)) p.
Proof.
  unfold new_RGBA. destruct (size_ok size); [|discriminate].
  destruct (ink c) as [p|]; [|discriminate].
  intros [= <-]. exists p. by destruct size.
Qed.

Lemma new_RGBA_total size c :
  size_ok size = true → is_Some (ink c) → is_Some (new_RGBA size c).
Proof. unfold new_RGBA. intros -> [p ->]. by eexists. Qed.

(** A pixel of a freshly made image. *)
Lemma getpixel_replicate {A} w h (p : A) x y :
  0 ≤ x < w → 0 ≤ y < h →
  getpixel (mkImage w h (replicate (Z.to_nat (w * h)) p)) (x, y) = Some p.
Proof.
  intros Hx Hy. unfold getpixel. cbn [im_width im_height im_data fst snd].
  destruct (Z.leb_spec 0 x); [|lia]. destruct (Z.ltb_spec x w); [|lia].
  destruct (Z.leb_spec 0 y); [|lia]. destruct (Z.ltb_spec y h); [|lia].
  cbn [andb]. apply lookup_replicate_2. nia.
Qed.

Lemma getpixel_lookup {A} (im : Image A) x y p :
  getpixel im (x, y) = Some p →
  (0 ≤ x < im_width im) ∧ (0 ≤ y < im_height im)
  ∧ im_data im !! Z.to_nat (y * im_width im + x) = Some p.
Proof.
  unfold getpixel. cbn [fst snd].
  destruct (Z.leb_spec 0 x), (Z.ltb_spec x (im_width im)),
    (Z.leb_spec 0 y), (Z.ltb_spec y (im_height im)); cbn [andb];
    try discriminate. intros Hp. repeat split; (lia || exact Hp).
Qed.

(** Two images of one size address their pixels alike. *)
Lemma getpixel_same_size {A B} (im1 : Image A) (im2 : Image B) x y :
  im_size im1 = im_size im2 →
  getpixel im1 (x, y) = None ∧ getpixel im2 (x, y) = None ∨
  getpixel im1 (x, y) = im_data im1 !! Z.to_nat (y * im_width im1 + x) ∧
  getpixel im2 (x, y) = im_data im2 !! Z.to_nat (y * im_width im1 + x).
Proof.
  unfold im_size. intros [= Hw Hh]. unfold getpixel. rewrite <- Hw, <- Hh.
  cbn [fst snd].
  destruct ((0 <=? x) && (x <? im_width im1) && (0 <=? y) && (y <? im_height im1));
    [right|left]; done.
Qed.

Section WithRaster.
Context `{Raster}.

Lemma draw_L_size c im : im_size (draw_L c im) = im_size im.
Proof. reflexivity. Qed.

Lemma draw_RGBA_size c im : im_size (draw_RGBA c im) = im_size im.
Proof. reflexivity. Qed.

Lemma paste_made dst src mask r :
  paste dst src mask = Some r →
  im_size mask = im_size src ∧ im_size src = im_size dst ∧ im_size r = im_size dst ∧
  im_data r = zip_with (λ d sm, blend_pixel sm.2 d sm.1)
                (im_data dst) (zip (im_data src) (im_data mask)).
Proof.
  unfold paste. case_bool_decide as Hs; [|discriminate].
  intros [= <-]. destruct Hs. done.
Qed.

Lemma paste_total dst src mask :
  im_size mask = im_size src → im_size src = im_size dst →
  is_Some (paste dst src mask).
Proof.
  intros H1 H2. unfold paste. rewrite bool_decide_eq_true_2 by done. by eexists.
Qed.

(** "Where the mask is 0, the current value is preserved." *)
Lemma paste_keeps dst src mask r x y :
  blend_keeps →
  paste dst src mask = Some r →
  getpixel mask (x, y) = Some 0 →
  is_Some (getpixel src (x, y)) →
  getpixel r (x, y) = getpixel dst (x, y).
Proof.
  intros Hkeep (Hms & Hsd & Hrd & Hdata)%paste_made Hm [s Hs].
  destruct (getpixel_same_size dst r x y) as [[-> ->]|[-> ->]]; [done|done|].
  destruct (getpixel_same_size dst src x y) as [[_ Hn]|[_ Hs']]; [done|congruence|].
  destruct (getpixel_same_size dst mask x y) as [[_ Hn]|[_ Hm']];
    [congruence|congruence|].
  rewrite Hs' in Hs. rewrite Hm' in Hm.
  rewrite Hdata, lookup_zip_with.
  destruct (im_data dst !! _) as [[[[dr dg] db] da]|]; [|done].
  cbn [mbind option_bind]. rewrite lookup_zip_with, Hs, Hm.
  cbn [mbind option_bind fst snd]. destruct s as [[[sr sg] sb] sa].
  unfold blend_pixel. by rewrite !Hkeep.
Qed.

End WithRaster.

End PillowFacts.

(** ** The canvas *)

Module CanvasFacts.
Import Float64 Pillow PillowFacts Loops LoopFacts Gradient GradientFacts Icon StrokeFacts.

Lemma canvas_size_ok : size_ok (size, size) = true.
Proof. reflexivity. Qed.

Lemma inner_box_eq :
  inner_mask_call = rounded_rectangle [(28, 28); (228, 228)] 55 [255].
Proof. reflexivity. Qed.

(** A sequence of steps succeeds when each step does. *)
Lemma bind_total {A B} (mx : option A) (f : A → option B) :
  is_Some mx → (∀ x, mx = Some x → is_Some (f x)) → is_Some (mx ≫= f).
Proof. intros [x ->] Hf. apply Hf. reflexivity. Qed.

Section WithRaster.
Context `{Raster}.

Lemma create_gradient_made width height c1 c2 g :
  create_gradient width height c1 c2 = Some g → im_size g = (width, height).
Proof.
  unfold create_gradient. intros Hg.
  apply bind_Some in Hg as (base & Hb & Hg).
  apply bind_Some in Hg as (top & Ht & Hg).
  apply bind_Some in Hg as (mask & Hm & Hg).
  apply paste_made in Hg as (_ & _ & -> & _).
  apply new_RGBA_made in Hb as (p & _ & Hb & _). exact Hb.
Qed.

(** The gradient is the end color pasted over the start color through
    the mask of [gradient_mask]. *)
Lemma create_gradient_mask width height c1 c2 g :
  create_gradient width height c1 c2 = Some g →
  ∃ base top mask,
    new_RGBA (width, height) c1 = Some base ∧
    new_RGBA (width, height) c2 = Some top ∧
    gradient_mask width height = Some mask ∧
    paste base top mask = Some g.
Proof.
  unfold create_gradient. intros Hg.
  apply bind_Some in Hg as (base & Hb & Hg).
  apply bind_Some in Hg as (top & Ht & Hg).
  apply bind_Some in Hg as (mask & Hm & Hg).
  by exists base, top, mask.
Qed.

Lemma create_gradient_total width height c1 c2 :
  size_ok (width, height) = true → is_Some (ink c1) → is_Some (ink c2) →
  is_Some (create_gradient width height c1 c2).
Proof.
  intros Hok H1 H2. unfold create_gradient.
  apply bind_total; [by apply new_RGBA_total|]. intros base Hb.
  apply bind_total; [by apply new_RGBA_total|]. intros top Ht.
  apply size_ok_iff in Hok as [Hw Hh]. cbn [fst snd] in Hw, Hh.
  apply bind_total; [by apply gradient_mask_total|]. intros mask Hm.
  apply new_RGBA_made in Hb as (p & _ & Hbs & _).
  apply new_RGBA_made in Ht as (q & _ & Hts & _).
  apply gradient_mask_made in Hm as (_ & _ & Hmw & Hmh & _).
  apply paste_total; [|congruence].
  rewrite Hts. unfold im_size. by rewrite Hmw, Hmh.
Qed.

Lemma outer_mask_made mask :
  outer_mask = Some mask → im_size mask = (size, size).
Proof.
  unfold outer_mask. intros Hm.
  apply bind_Some in Hm as (m & Hm & Hd). injection Hd as <-.
  rewrite draw_L_size. apply new_L_made in Hm as [Hm _]. exact Hm.
Qed.

Lemma outer_mask_total : is_Some outer_mask.
Proof.
  unfold outer_mask.
  apply bind_total; [by apply new_L_total|].
  intros m _. eexists. reflexivity.
Qed.

Lemma gradient_shape_made shape :
  gradient_shape = Some shape → im_size shape = (size, size).
Proof.
  unfold gradient_shape. intros Hs.
  apply bind_Some in Hs as (mask & Hm & Hs).
  apply bind_Some in Hs as (g & Hg & Hs).
  apply bind_Some in Hs as (im & Him & Hs).
  apply paste_made in Hs as (_ & _ & -> & _).
  apply new_RGBA_made in Him as (p & _ & Him & _). exact Him.
Qed.

(** A tuple of three or four bytes is a color. *)
Lemma is_Some_ink_bytes c :
  (length c = 3 ∨ length c = 4)%nat → Forall (λ v, 0 ≤ v ≤ 255) c →
  ∃ p, ink c = Some p.
Proof.
  intros Hlen Hc.
  assert (Hr : ∀ v, 0 ≤ v ≤ 255 → is_long_long v = true ∧ is_int v = true).
  { intros v Hv. unfold is_long_long, is_int, INT_MAX.
    split; apply andb_true_iff; split; apply Z.leb_le; lia. }
  destruct c as [|r [|g [|b [|a [|? ?]]]]]; cbn [length] in Hlen; try lia.
  - apply Forall_cons in Hc as [[Hr1 _]%Hr Hc].
    apply Forall_cons in Hc as [[_ Hg]%Hr Hc].
    apply Forall_cons in Hc as [[_ Hb]%Hr _].
    unfold ink. rewrite Hr1, Hg, Hb. by eexists.
  - apply Forall_cons in Hc as [[Hr1 _]%Hr Hc].
    apply Forall_cons in Hc as [[_ Hg]%Hr Hc].
    apply Forall_cons in Hc as [[_ Hb]%Hr Hc].
    apply Forall_cons in Hc as [[_ Ha]%Hr _].
    unfold ink. rewrite Hr1, Hg, Hb, Ha. by eexists.
Qed.

Lemma gradient_shape_total : is_Some gradient_shape.
Proof.
  unfold gradient_shape.
  apply bind_total; [apply outer_mask_total|]. intros mask Hm.
  apply bind_total.
  { apply create_gradient_total;
      [apply canvas_size_ok | by eexists | by eexists]. }
  intros g Hg.
  apply bind_total.
  { apply new_RGBA_total; [apply canvas_size_ok | by eexists]. }
  intros im Him.
  apply outer_mask_made in Hm. apply create_gradient_made in Hg.
  apply new_RGBA_made in Him as (p & _ & Him & _).
  apply paste_total; congruence.
Qed.

Lemma inner_mask_made mask :
  inner_mask = Some mask →
  im_size mask = (size, size) ∧
  mask = draw_L inner_mask_call
           (mkImage size size (replicate (Z.to_nat (size * size)) 0)).
Proof.
  unfold inner_mask. intros Hm.
  apply bind_Some in Hm as (m & Hm & Hd). injection Hd as <-.
  apply new_L_made in Hm as [Hsz Hdata].
  split; [rewrite draw_L_size; exact Hsz|].
  destruct m as [w h d]. unfold im_size in Hsz.
  cbn [im_width im_height im_data fst snd] in Hsz, Hdata.
  injection Hsz as -> ->. rewrite Hdata. reflexivity.
Qed.

Lemma inner_mask_total : is_Some inner_mask.
Proof.
  unfold inner_mask.
  apply bind_total; [by apply new_L_total|].
  intros m _. eexists. reflexivity.
Qed.

Lemma paste_panel_made icon_shape shape :
  paste_panel icon_shape = Some shape →
  im_size icon_shape = (size, size) ∧ im_size shape = (size, size) ∧
  ∃ mask dark_layer,
    inner_mask = Some mask ∧ new_RGBA (size, size) color_bg = Some dark_layer ∧
    paste icon_shape dark_layer mask = Some shape.
Proof.
  unfold paste_panel. intros Hs.
  apply bind_Some in Hs as (mask & Hm & Hs).
  apply bind_Some in Hs as (dark & Hd & Hs).
  pose proof (paste_made _ _ _ _ Hs) as (_ & Hsd & Hr & _).
  pose proof (new_RGBA_made _ _ _ Hd) as (p & _ & Hds & _).
  assert (Hi : im_size icon_shape = (size, size)) by congruence.
  split; [exact Hi|]. split; [congruence|].
  exists mask, dark. split; [exact Hm|]. split; [exact Hd | exact Hs].
Qed.

Lemma paste_panel_total icon_shape :
  im_size icon_shape = (size, size) → is_Some (paste_panel icon_shape).
Proof.
  intros Hsz. unfold paste_panel.
  apply bind_total; [apply inner_mask_total|]. intros mask Hm.
  apply bind_total.
  { apply new_RGBA_total; [apply canvas_size_ok | by eexists]. }
  intros dark Hd.
  apply inner_mask_made in Hm as [Hm _].
  apply new_RGBA_made in Hd as (p & _ & Hd & _).
  apply paste_total; congruence.
Qed.

Lemma glow_call_total i :
  i ∈ glow_rounds → is_Some (chevron_glow_call i) ∧ is_Some (cursor_glow_call i).
Proof.
  rewrite glow_rounds_eq, !elem_of_cons, elem_of_nil. intros Hi.
  unfold chevron_glow_call, cursor_glow_call.
  rewrite glow_alpha_floor by lia. split; eexists; reflexivity.
Qed.

Lemma glow_round_size (call : Z → option draw_call) i s s' :
  (c ← call i; Some (draw_RGBA c s)) = Some s' → im_size s' = im_size s.
Proof.
  intros Hb. apply bind_Some in Hb as (c & _ & Hb). injection Hb as <-.
  apply draw_RGBA_size.
Qed.

Lemma draw_glyphs_made icon_shape shape :
  draw_glyphs icon_shape = Some shape → im_size shape = im_size icon_shape.
Proof.
  unfold draw_glyphs. intros Hs.
  apply bind_Some in Hs as (s1 & H1 & Hs).
  apply bind_Some in Hs as (s2 & H2 & Hs). injection Hs as <-.
  rewrite draw_RGBA_size.
  apply (for_each_invariant (λ s, im_size s = im_size icon_shape)) in H2.
  - exact H2.
  - intros i s s' Hb Hs. rewrite <- Hs. exact (glow_round_size _ _ _ _ Hb).
  - rewrite draw_RGBA_size.
    apply (for_each_invariant (λ s, im_size s = im_size icon_shape)) in H1.
    + exact H1.
    + intros i s s' Hb Hs. rewrite <- Hs. exact (glow_round_size _ _ _ _ Hb).
    + reflexivity.
Qed.

(** The strokes of [chevron_strokes] and [cursor_strokes] are the calls
    made on the canvas, in this order. *)
Lemma draw_glyphs_strokes icon_shape chevron cursor :
  chevron_strokes = Some chevron → cursor_strokes = Some cursor →
  draw_glyphs icon_shape
  = Some (foldl (λ im c, draw_RGBA c im) icon_shape (chevron ++ cursor)).
Proof.
  unfold chevron_strokes, cursor_strokes, draw_glyphs. intros Hc Hu.
  apply bind_Some in Hc as (glow1 & Hg1 & Hc). injection Hc as <-.
  apply bind_Some in Hu as (glow2 & Hg2 & Hu). injection Hu as <-.
  apply bind_Some. eexists. split; [exact (for_each_calls _ _ _ _ _ Hg1)|].
  apply bind_Some. eexists. split; [exact (for_each_calls _ _ _ _ _ Hg2)|].
  rewrite !foldl_app. reflexivity.
Qed.

Lemma draw_glyphs_total icon_shape : is_Some (draw_glyphs icon_shape).
Proof.
  unfold draw_glyphs.
  apply bind_total.
  { apply for_each_total. intros i s [Hc _]%glow_call_total.
    apply bind_total; [exact Hc|]. intros c _. eexists. reflexivity. }
  intros s1 _.
  apply bind_total.
  { apply for_each_total. intros i s [_ Hc]%glow_call_total.
    apply bind_total; [exact Hc|]. intros c _. eexists. reflexivity. }
  intros s2 _. eexists. reflexivity.
Qed.

Lemma compose_icon_made canvas :
  compose_icon = Some canvas →
  im_size canvas = (size, size) ∧
  ∃ shape1 shape2,
    gradient_shape = Some shape1 ∧ paste_panel shape1 = Some shape2 ∧
    draw_glyphs shape2 = Some canvas.
Proof.
  unfold compose_icon. intros Hc.
  apply bind_Some in Hc as (img & _ & Hc).
  apply bind_Some in Hc as (s1 & H1 & Hc).
  apply bind_Some in Hc as (s2 & H2 & Hc).
  pose proof (draw_glyphs_made _ _ Hc) as Hsz.
  pose proof (paste_panel_made _ _ H2) as (_ & Hs2 & _).
  split; [congruence|]. exists s1, s2.
  split; [exact H1|]. split; [exact H2 | exact Hc].
Qed.

(** The canvas is always composed. *)
Lemma compose_icon_total : is_Some compose_icon.
Proof.
  unfold compose_icon.
  apply bind_total.
  { apply new_RGBA_total; [apply canvas_size_ok | by eexists]. }
  intros img _.
  apply bind_total; [apply gradient_shape_total|]. intros s1 H1.
  apply bind_total; [apply paste_panel_total, (gradient_shape_made _ H1)|].
  intros s2 _. apply draw_glyphs_total.
Qed.

End WithRaster.

End CanvasFacts.

(** ** The small rasteriser keeps Pillow's contract *)

Module ReferenceFacts.
Import Pillow PillowFacts Reference.

Lemma flat_blend_keeps : @blend_keeps flat_raster.
Proof. intros d s. reflexivity. Qed.

Lemma lookup_fill_box {A} x0 y0 x1 y1 (p : A) w h data x y :
  0 ≤ x < w → 0 ≤ y →
  ¬ (x0 ≤ x ≤ x1 ∧ y0 ≤ y ≤ y1) →
  fill_box x0 y0 x1 y1 p (w, h) data !! Z.to_nat (y * w + x)
  = data !! Z.to_nat (y * w + x).
Proof.
  intros Hx Hy Hout. unfold fill_box. rewrite list_lookup_imap.
  destruct (data !! Z.to_nat (y * w + x)) as [old|]; [|done].
  cbn [fmap option_fmap option_map fst]. f_equal.
  unfold in_box. rewrite Z2Nat.id by nia.
  rewrite Z.add_comm, Z_mod_plus_full, Z.mod_small by lia.
  rewrite Z.div_add, Z.div_small, Z.add_0_l by lia.
  destruct (Z.leb_spec x0 x), (Z.leb_spec x x1), (Z.leb_spec y0 y), (Z.leb_spec y y1);
    cbn [andb]; (reflexivity || lia).
Qed.

Lemma flat_rounded_rectangle_inside : @rounded_rectangle_inside flat_raster.
Proof.
  intros x0 y0 x1 y1 radius fill im x y Hout.
  unfold getpixel. cbn [draw_L im_width im_height im_data fst snd].
  destruct ((0 <=? x) && (x <? im_width im) && (0 <=? y) && (y <? im_height im))
    eqn:Hin; [|reflexivity].
  apply andb_true_iff in Hin as [[[H1%Z.leb_le H2%Z.ltb_lt]%andb_true_iff
    H3%Z.leb_le]%andb_true_iff H4%Z.ltb_lt].
  cbn [raster_L flat_raster flat_L].
  destruct fill as [|v [|? ?]]; try reflexivity.
  unfold im_size. by apply lookup_fill_box.
Qed.

End ReferenceFacts.

(** ** The export *)

Module ExportFacts.
Import Pillow PillowFacts Loops LoopFacts Icon CanvasFacts.

Lemma output_path_ne_png_path : output_path ≠ png_path.
Proof. discriminate. Qed.

Lemma ensure_output_dir_exists fs :
  path_exists output_dir fs = true → ensure_output_dir fs = Some fs.
Proof. unfold ensure_output_dir. by intros ->. Qed.

Lemma ensure_output_dir_absent fs :
  path_exists output_dir fs = false →
  ensure_output_dir fs = Some (mkFs ({[output_dir]} ∪ dirs fs) (files fs) (stdout fs)).
Proof. unfold ensure_output_dir, makedirs. by intros ->. Qed.

(** [os.makedirs] alone would raise on the second run. *)
Lemma makedirs_exists fs :
  path_exists output_dir fs = true → makedirs output_dir fs = None.
Proof. unfold makedirs. by intros ->. Qed.

Lemma path_exists_dir p fs : p ∈ dirs fs → path_exists p fs = true.
Proof. intros Hp. unfold path_exists. apply bool_decide_eq_true_2. by left. Qed.

Lemma ensure_output_dir_made fs fs' :
  ensure_output_dir fs = Some fs' →
  files fs' = files fs ∧ stdout fs' = stdout fs ∧
  path_exists output_dir fs' = true ∧
  (path_exists output_dir fs = true ∧ fs' = fs ∨
   path_exists output_dir fs = false ∧ dirs fs' = {[output_dir]} ∪ dirs fs).
Proof.
  destruct (path_exists output_dir fs) eqn:He.
  - rewrite ensure_output_dir_exists by done. intros [= <-]. eauto 10.
  - rewrite ensure_output_dir_absent by done. intros [= <-].
    cbn [files stdout dirs]. repeat split; [|by right].
    apply path_exists_dir. cbn [dirs]. set_solver.
Qed.

Lemma ensure_output_dir_mono fs fs' :
  ensure_output_dir fs = Some fs' → dirs fs ⊆ dirs fs' ∧ dirs fs' ⊆ {[output_dir]} ∪ dirs fs.
Proof.
  intros (_ & _ & _ & [[_ ->]|[_ ->]])%ensure_output_dir_made; set_solver.
Qed.

Lemma write_file_made dir name bytes fs fs' :
  write_file dir name bytes fs = Some fs' →
  dir ∈ dirs fs ∧ (join dir name ∉ dirs fs) ∧
  dirs fs' = dirs fs ∧ files fs' = <[join dir name := bytes]> (files fs) ∧
  stdout fs' = stdout fs.
Proof.
  unfold write_file. case_bool_decide as Hd; [|discriminate].
  intros [= <-]. by destruct Hd.
Qed.

Lemma write_file_total dir name bytes fs :
  dir ∈ dirs fs → join dir name ∉ dirs fs → is_Some (write_file dir name bytes fs).
Proof.
  intros H1 H2. unfold write_file. rewrite bool_decide_eq_true_2 by done. by eexists.
Qed.

Section WithRaster.
Context `{Raster}.

(** Resizing to the size the image has returns the image. *)
Lemma resize_same im filter : resize im (im_size im) filter = Some im.
Proof. unfold resize. by rewrite bool_decide_eq_true_2. Qed.

Lemma resize_made im size filter r :
  resize im size filter = Some r → im_size r = size.
Proof.
  unfold resize. case_bool_decide as Hs; [by intros [= <-]|].
  destruct (size_ok size && (1 <=? size.1) && (1 <=? size.2)); [|discriminate].
  intros [= <-]. by destruct size.
Qed.

Lemma resize_total im size filter :
  size_ok size = true → 1 ≤ size.1 → 1 ≤ size.2 →
  is_Some (resize im size filter).
Proof.
  intros Hok H1 H2. unfold resize. case_bool_decide; [by eexists|].
  rewrite Hok. cbn [andb].
  destruct (Z.leb_spec 1 size.1); [|lia]. destruct (Z.leb_spec 1 size.2); [|lia].
  by eexists.
Qed.

Lemma sizes_resizable s :
  s ∈ sizes → size_ok s = true ∧ 1 ≤ s.1 ∧ 1 ≤ s.2.
Proof.
  unfold sizes. rewrite !elem_of_cons, elem_of_nil.
  intros [->|[->|[->|[->|[->|[->|[]]]]]]]; (split; [reflexivity|cbn [fst snd]; lia]).
Qed.

(** The loop over [sizes] never raises and makes one frame per entry. *)
Lemma resample_all_eq canvas :
  resample_all canvas
  = Some ((λ s, default canvas (resize canvas s LANCZOS)) <$> sizes).
Proof.
  unfold resample_all.
  apply (for_each_append (λ s, resize canvas s LANCZOS)
           (λ s, default canvas (resize canvas s LANCZOS)) sizes []).
  intros s (Hok & H1 & H2)%sizes_resizable.
  by destruct (resize_total canvas s LANCZOS Hok H1 H2) as [r ->].
Qed.

Lemma resample_all_frames canvas frames :
  resample_all canvas = Some frames →
  Forall2 (λ s frame, resize canvas s LANCZOS = Some frame ∧ im_size frame = s)
    sizes frames.
Proof.
  rewrite resample_all_eq. intros Hf.
  assert (frames = (λ s, default canvas (resize canvas s LANCZOS)) <$> sizes)
    as -> by congruence.
  apply Forall2_fmap_r, Forall_Forall2_diag, Forall_forall.
  intros s (Hok & H1 & H2)%sizes_resizable.
  destruct (resize_total canvas s LANCZOS Hok H1 H2) as [r Hr].
  unfold compose. rewrite Hr. split; [reflexivity|].
  exact (resize_made _ _ _ _ Hr).
Qed.

(** On a canvas of the native size the first frame is the canvas and
    the other five are resampled. *)
Lemma resample_all_native canvas :
  im_size canvas = (size, size) →
  resample_all canvas
  = Some (canvas ::
          ((λ s : Z * Z, mkImage s.1 s.2 (resample_pixels canvas s LANCZOS))
             <$> [(128, 128); (64, 64); (48, 48); (32, 32); (16, 16)])).
Proof.
  intros Hs. rewrite resample_all_eq.
  destruct canvas as [w h d]. injection Hs as -> ->. reflexivity.
Qed.

(** The ICO plugin goes through the sizes in ascending order and finds
    for each the frame the program made for it. *)
Lemma sorted_set_sizes :
  sorted_set sizes = [(16, 16); (32, 32); (48, 48); (64, 64); (128, 128); (256, 256)].
Proof. reflexivity. Qed.

Lemma ico_frames_native canvas first rest :
  im_size canvas = (size, size) →
  resample_all canvas = Some (first :: rest) →
  first = canvas ∧
  ico_frames first sizes rest = reverse (first :: rest) ∧
  im_size <$> ico_frames first sizes rest = sorted_set sizes.
Proof.
  intros Hs. rewrite (resample_all_native _ Hs). intros [= <- <-].
  destruct canvas as [w h d]. injection Hs as -> ->.
  split; [reflexivity|]. split; reflexivity.
Qed.

(** Of the frames written, the one of the native size is the canvas. *)
Lemma ico_frames_native_frame canvas first rest :
  im_size canvas = (size, size) →
  resample_all canvas = Some (first :: rest) →
  filter (λ frame, im_size frame = (256, 256)) (ico_frames first sizes rest)
  = [canvas] ∧
  last (ico_frames first sizes rest) = Some canvas.
Proof.
  intros Hs. rewrite (resample_all_native _ Hs). intros [= <- <-].
  destruct canvas as [w h d]. injection Hs as -> ->.
  split; reflexivity.
Qed.

(** What a finished export leaves behind. *)
Lemma export_made canvas fs fs' :
  export canvas fs = Some fs' →
  ∃ fs0 first rest,
    ensure_output_dir fs = Some fs0 ∧
    resample_all canvas = Some (first :: rest) ∧
    output_dir ∈ dirs fs0 ∧ (output_path ∉ dirs fs0) ∧ (png_path ∉ dirs fs0) ∧
    dirs fs' = dirs fs0 ∧
    files fs' = <[png_path := encode_png canvas]>
                  (<[output_path := encode_ico (ico_frames first sizes rest)]>
                     (files fs0)).
Proof.
  unfold export. intros He.
  apply bind_Some in He as (fs0 & H0 & He).
  apply bind_Some in He as (frames & Hf & He).
  apply bind_Some in He as (fs1 & H1 & He).
  apply bind_Some in He as (fs2 & H2 & He). injection He as <-.
  unfold save_ico in H1. destruct frames as [|first rest]; [discriminate|].
  apply write_file_made in H1 as (Hd1 & Hn1 & Hdirs1 & Hfiles1 & _).
  unfold save_png in H2.
  apply write_file_made in H2 as (Hd2 & Hn2 & Hdirs2 & Hfiles2 & _).
  cbn [print dirs files] in *.
  exists fs0, first, rest. repeat split; try done.
  - by rewrite <- Hdirs1.
  - congruence.
  - by rewrite Hfiles2, Hfiles1.
Qed.

Lemma export_total canvas fs :
  output_dir ∈ dirs fs ∨ path_exists output_dir fs = false →
  output_path ∉ dirs fs → png_path ∉ dirs fs →
  is_Some (export canvas fs).
Proof.
  intros Hdir Hico Hpng. unfold export.
  assert (H0 : ∃ fs0, ensure_output_dir fs = Some fs0).
  { destruct (path_exists output_dir fs) eqn:He.
    - rewrite ensure_output_dir_exists by done. by eexists.
    - rewrite ensure_output_dir_absent by done. by eexists. }
  destruct H0 as [fs0 H0]. rewrite H0.
  pose proof (ensure_output_dir_made _ _ H0) as (_ & _ & _ & Hcase).
  pose proof (ensure_output_dir_mono _ _ H0) as [_ Hsub].
  assert (Hd0 : output_dir ∈ dirs fs0).
  { destruct Hcase as [[He ->]|[He Hd]].
    - destruct Hdir as [|Hf]; [done|congruence].
    - rewrite Hd. apply elem_of_union_l. by apply elem_of_singleton. }
  assert (Hico0 : output_path ∉ dirs fs0).
  { intros [Hin%elem_of_singleton|Hin]%Hsub%elem_of_union; [discriminate|done]. }
  assert (Hpng0 : png_path ∉ dirs fs0).
  { intros [Hin%elem_of_singleton|Hin]%Hsub%elem_of_union; [discriminate|done]. }
  cbn [mbind option_bind]. rewrite resample_all_eq.
  cbn [mbind option_bind sizes fmap list_fmap]. unfold save_ico.
  set (first := default canvas (resize canvas (256, 256) LANCZOS)).
  set (rest := _ :: _).
  pose proof (write_file_total output_dir "app.ico"
    (encode_ico (ico_frames first sizes rest)) fs0 Hd0 Hico0) as [fs1 H1].
  rewrite H1. cbn [mbind option_bind].
  apply write_file_made in H1 as (_ & _ & Hdirs1 & _).
  unfold save_png.
  pose proof (write_file_total output_dir "app.png" (encode_png canvas)
    (print ("Icon generated successfully at: " +:+ output_path) fs1)) as [fs2 H2].
  { cbn [print dirs]. by rewrite Hdirs1. }
  { cbn [print dirs]. by rewrite Hdirs1. }
  rewrite H2. by eexists.
Qed.

End WithRaster.

End ExportFacts.

(** ** The generator *)

Module IconFacts.
Import Pillow PillowFacts Loops LoopFacts Gradient Icon CanvasFacts ExportFacts.

(** The proofs below go through the lemmas on each step and never run
    the composition. *)
#[local] Opaque compose_icon gradient_shape paste_panel inner_mask export.

Section WithRaster.
Context `{Raster}.

Lemma generate_app_icon_made fs fs' :
  generate_app_icon fs = Some fs' →
  ∃ canvas, compose_icon = Some canvas ∧ export canvas fs = Some fs'.
Proof. unfold generate_app_icon. intros Hg. by apply bind_Some in Hg. Qed.

Lemma generate_app_icon_total fs :
  output_dir ∈ dirs fs ∨ path_exists output_dir fs = false →
  output_path ∉ dirs fs → png_path ∉ dirs fs →
  is_Some (generate_app_icon fs).
Proof.
  intros Hdir Hico Hpng. unfold generate_app_icon.
  apply bind_total; [apply compose_icon_total|].
  intros canvas _. by apply export_total.
Qed.

(** The pixels of the inner mask outside its bounding box are 0. *)
Lemma inner_mask_outside mask x y :
  rounded_rectangle_inside →
  inner_mask = Some mask →
  0 ≤ x < size → 0 ≤ y < size →
  ¬ (inner_padding ≤ x ≤ size - inner_padding ∧
     inner_padding ≤ y ≤ size - inner_padding) →
  getpixel mask (x, y) = Some 0.
Proof.
  intros Hinside Hm Hx Hy Hout.
  apply inner_mask_made in Hm as [_ ->].
  unfold inner_mask_call. rewrite Hinside by exact Hout.
  by apply getpixel_replicate.
Qed.

(** C7: the paste of the dark panel through the inner rounded mask, which
    comes after the paste of the gradient through the outer mask, leaves
    every pixel where the inner mask is 0 as it was; this holds for every
    pixel outside the bounding box of the inner mask, and so for the ring
    of border_width pixels between the edges of the two boxes. *)
Theorem panel_paste_frame icon_shape shape mask x y :
  blend_keeps → rounded_rectangle_inside →
  gradient_shape = Some icon_shape →
  paste_panel icon_shape = Some shape →
  inner_mask = Some mask →
  (getpixel mask (x, y) = Some 0 →
     getpixel shape (x, y) = getpixel icon_shape (x, y)) ∧
  (¬ (inner_padding ≤ x ≤ size - inner_padding ∧
      inner_padding ≤ y ≤ size - inner_padding) →
     getpixel shape (x, y) = getpixel icon_shape (x, y)) ∧
  (padding ≤ x < padding + border_width ∨
   size - padding - border_width < x ≤ size - padding ∨
   padding ≤ y < padding + border_width ∨
   size - padding - border_width < y ≤ size - padding →
     getpixel shape (x, y) = getpixel icon_shape (x, y)).
Proof.
  intros Hkeep Hinside Hg Hp Hm.
  pose proof (paste_panel_made _ _ Hp) as (Hsi & Hss & mask' & dark & Hm' & Hd & Hpaste).
  assert (mask' = mask) as -> by congruence.
  pose proof (new_RGBA_eq _ _ _ Hd) as (p & _ & Hdark).
  cbn [fst snd] in Hdark.
  assert (Hzero : getpixel mask (x, y) = Some 0 →
                  getpixel shape (x, y) = getpixel icon_shape (x, y)).
  { intros Hz. apply (paste_keeps _ _ _ _ _ _ Hkeep Hpaste Hz).
    pose proof (inner_mask_made _ Hm) as [Hms _].
    apply getpixel_lookup in Hz as (Hx & Hy & _).
    unfold im_size in Hms. injection Hms as Hmw Hmh. rewrite Hmw in Hx. rewrite Hmh in Hy.
    rewrite Hdark. rewrite getpixel_replicate by done. by eexists. }
  assert (Hbox : ¬ (inner_padding ≤ x ≤ size - inner_padding ∧
                    inner_padding ≤ y ≤ size - inner_padding) →
                 getpixel shape (x, y) = getpixel icon_shape (x, y)).
  { intros Hout.
    destruct (decide ((0 ≤ x < size) ∧ (0 ≤ y < size))) as [[Hx Hy]|Hcanvas].
    - apply Hzero. by apply inner_mask_outside.
    - unfold im_size in Hsi, Hss. injection Hsi as Hiw Hih. injection Hss as Hsw Hsh.
      rewrite !getpixel_outside; [done|rewrite ?Hiw, ?Hih, ?Hsw, ?Hsh; exact Hcanvas..]. }
  split; [exact Hzero|]. split; [exact Hbox|].
  intros Hring. apply Hbox. unfold inner_padding, padding, border_width, size in *. lia.
Qed.

(** What a finished run has made and written: the canvas, the frames of
    the loop, and the two files. *)
Lemma generate_app_icon_outputs fs fs' :
  generate_app_icon fs = Some fs' →
  ∃ canvas rest,
    compose_icon = Some canvas ∧
    im_size canvas = (size, size) ∧
    resample_all canvas = Some (canvas :: rest) ∧
    ico_frames canvas sizes rest = reverse (canvas :: rest) ∧
    files fs' !! output_path = Some (encode_ico (ico_frames canvas sizes rest)) ∧
    files fs' !! png_path = Some (encode_png canvas).
Proof.
  intros (canvas & Hc & He)%generate_app_icon_made.
  pose proof (compose_icon_made _ Hc) as [Hsz _].
  pose proof (export_made _ _ _ He)
    as (fs0 & first & rest & _ & Hall & _ & _ & _ & _ & Hfiles).
  pose proof (ico_frames_native _ _ _ Hsz Hall) as (-> & Hico & _).
  exists canvas, rest.
  split; [exact Hc|]. split; [exact Hsz|]. split; [exact Hall|].
  split; [exact Hico|]. rewrite Hfiles. split.
  - rewrite lookup_insert_ne by (symmetry; apply output_path_ne_png_path).
    apply lookup_insert_eq.
  - apply lookup_insert_eq.
Qed.

(** C6, as the code and Pillow have it: the size list has 6 entries,
    all square, strictly descending (256, 128, 64, 48, 32, 16), the first
    one the native canvas size; in a run the loop makes one resized frame
    per entry, in that order, each of the size of its entry; and the ICO
    save puts exactly these frames into the container, in the reverse
    order: the sizes ascending, 16 first and 256 last. *)
Theorem sizes_and_frames :
  length sizes = 6%nat ∧
  Forall (λ s : Z * Z, s.1 = s.2) sizes ∧
  sizes.*1 = [256; 128; 64; 48; 32; 16] ∧
  StronglySorted (λ a b : Z * Z, b.1 < a.1) sizes ∧
  head sizes = Some (size, size) ∧
  ∀ fs fs', generate_app_icon fs = Some fs' →
    ∃ canvas frames,
      compose_icon = Some canvas ∧
      resample_all canvas = Some frames ∧
      Forall2 (λ s frame, resize canvas s LANCZOS = Some frame ∧ im_size frame = s)
        sizes frames ∧
      files fs' !! output_path = Some (encode_ico (reverse frames)) ∧
      im_size <$> reverse frames
      = [(16, 16); (32, 32); (48, 48); (64, 64); (128, 128); (256, 256)].
Proof.
  split; [reflexivity|]. split; [by repeat constructor|].
  split; [reflexivity|]. split; [by repeat constructor|].
  split; [reflexivity|]. intros fs fs' Hrun.
  pose proof (generate_app_icon_outputs _ _ Hrun)
    as (canvas & rest & Hc & Hsz & Hall & Hico & Hfile & _).
  pose proof (ico_frames_native _ _ _ Hsz Hall) as (_ & _ & Hsizes).
  exists canvas, (canvas :: rest).
  split; [exact Hc|]. split; [exact Hall|].
  split; [exact (resample_all_frames _ _ Hall)|].
  split; [by rewrite <- Hico|]. by rewrite <- Hico, Hsizes.
Qed.

(** C3: in a run that finishes, the PNG is encoded from the native
    256x256 canvas itself, with nothing resampled; the frame the program
    makes for the entry (256, 256), by resizing the canvas with Lanczos,
    is the canvas again, as Pillow copies an image that is resized to its
    own size; and the container written holds exactly one 256x256 frame,
    its last, which is that canvas, pixel for pixel. *)
Theorem png_is_native_frame fs fs' :
  generate_app_icon fs = Some fs' →
  ∃ canvas rest,
    compose_icon = Some canvas ∧
    im_size canvas = (256, 256) ∧
    files fs' !! png_path = Some (encode_png canvas) ∧
    resize canvas (256, 256) LANCZOS = Some canvas ∧
    resample_all canvas = Some (canvas :: rest) ∧
    files fs' !! output_path = Some (encode_ico (ico_frames canvas sizes rest)) ∧
    filter (λ frame, im_size frame = (256, 256)) (ico_frames canvas sizes rest)
    = [canvas] ∧
    last (ico_frames canvas sizes rest) = Some canvas.
Proof.
  intros Hrun.
  pose proof (generate_app_icon_outputs _ _ Hrun)
    as (canvas & rest & Hc & Hsz & Hall & _ & Hfile & Hpng).
  pose proof (ico_frames_native_frame _ _ _ Hsz Hall) as [Hone Hlast].
  exists canvas, rest.
  split; [exact Hc|]. split; [exact Hsz|]. split; [exact Hpng|].
  split; [change (256, 256) with (size, size); rewrite <- Hsz; apply resize_same|].
  split; [exact Hall|]. split; [exact Hfile|]. split; [exact Hone | exact Hlast].
Qed.


End WithRaster.

(** The theorems above at the small rasteriser. *)
Import Reference ReferenceFacts.

Lemma panel_paste_frame_witness :
  ∃ icon_shape shape mask,
    @gradient_shape flat_raster = Some icon_shape ∧
    @paste_panel flat_raster icon_shape = Some shape ∧
    @inner_mask flat_raster = Some mask ∧
    getpixel shape (24, 128) = getpixel icon_shape (24, 128).
Proof.
  pose proof (@gradient_shape_total flat_raster) as [icon_shape Hg].
  pose proof (@paste_panel_total flat_raster icon_shape (gradient_shape_made _ Hg))
    as [shape Hp].
  pose proof (@inner_mask_total flat_raster) as [mask Hm].
  exists icon_shape, shape, mask.
  split; [exact Hg|]. split; [exact Hp|]. split; [exact Hm|].
  pose proof (@panel_paste_frame flat_raster icon_shape shape mask 24 128
                flat_blend_keeps flat_rounded_rectangle_inside Hg Hp Hm)
    as (_ & Hbox & _).
  apply Hbox. unfold inner_padding, padding, border_width, size. lia.
Defined.

Lemma prepared_fs_ready :
  output_dir ∈ dirs (mkFs {[output_dir]} ∅ []) ∧
  (output_path ∉ dirs (mkFs {[output_dir]} ∅ [])) ∧
  (png_path ∉ dirs (mkFs {[output_dir]} ∅ [])).
Proof.
  cbn [dirs]. split; [by apply elem_of_singleton|].
  split; intros Hin%elem_of_singleton; discriminate.
Qed.

Lemma png_is_native_frame_witness :
  ∃ fs' canvas,
    @generate_app_icon flat_raster (mkFs {[output_dir]} ∅ []) = Some fs' ∧
    @compose_icon flat_raster = Some canvas ∧
    files fs' !! png_path = Some (@encode_png flat_raster canvas) ∧
    @resize flat_raster canvas (256, 256) LANCZOS = Some canvas.
Proof.
  destruct prepared_fs_ready as (Hd & Hi & Hp).
  pose proof (@generate_app_icon_total flat_raster _ (or_introl Hd) Hi Hp)
    as [fs' Hrun].
  pose proof (@png_is_native_frame flat_raster _ fs' Hrun)
    as (canvas & rest & Hc & _ & Hpng & Hsame & _).
  exists fs', canvas. split; [exact Hrun|]. split; [exact Hc|].
  split; [exact Hpng | exact Hsame].
Defined.

(** C6 as stated fails: the frames are not stored in the order of the
    size list.  In a run on a prepared output directory the loop makes
    the frames of 256, 128, 64, 48, 32 and 16 pixels in this order, and
    the container written starts with the one of 16 pixels. *)
Lemma container_not_in_list_order :
  ∃ fs' canvas frames container,
    @generate_app_icon flat_raster (mkFs {[output_dir]} ∅ []) = Some fs' ∧
    @compose_icon flat_raster = Some canvas ∧
    @resample_all flat_raster canvas = Some frames ∧
    im_size <$> frames = sizes ∧
    files fs' !! output_path = Some (@encode_ico flat_raster container) ∧
    container = @ico_frames flat_raster canvas sizes (tail frames) ∧
    im_size <$> container
    = [(16, 16); (32, 32); (48, 48); (64, 64); (128, 128); (256, 256)] ∧
    im_size <$> container ≠ im_size <$> frames.
Proof.
  destruct prepared_fs_ready as (Hd & Hi & Hp).
  pose proof (@generate_app_icon_total flat_raster _ (or_introl Hd) Hi Hp)
    as [fs' Hrun].
  pose proof (@generate_app_icon_outputs flat_raster _ _ Hrun)
    as (canvas & rest & Hc & Hsz & Hall & Hico & Hfile & _).
  pose proof (@ico_frames_native flat_raster _ _ _ Hsz Hall) as (_ & _ & Hsizes).
  assert (Hlist : im_size <$> canvas :: rest = sizes).
  { pose proof (@resample_all_frames flat_raster _ _ Hall) as Hf.
    clear -Hf. symmetry. apply list_eq_Forall2.
    apply Forall2_fmap_r. eapply Forall2_impl; [exact Hf|].
    intros s frame [_ Hs]. by symmetry. }
  exists fs', canvas, (canvas :: rest), (@ico_frames flat_raster canvas sizes rest).
  split; [exact Hrun|]. split; [exact Hc|]. split; [exact Hall|].
  split; [exact Hlist|]. split; [exact Hfile|]. split; [reflexivity|].
  rewrite Hsizes, Hlist. split; [reflexivity|]. intros [=].
Qed.


End IconFacts.

(** ** Integer quotients through floats *)

Module QuotientFacts.
Import Float64 Float64Facts.

(** A value [m / 2^t] with at most 53 bits is a float: it rounds to
    itself. *)
Lemma round_units_at_dyadic u m t :
  0 ≤ t ≤ u → 0 ≤ m < 2 ^ 53 → round_units_at u m (2 ^ t) = m * 2 ^ (u - t).
Proof.
  intros Ht Hm.
  assert (HT : 0 < 2 ^ t) by (apply Z.pow_pos_nonneg; lia).
  destruct (decide (m = 0)) as [->|Hm0]; [by rewrite round_units_at_0|].
  unfold round_units_at.
  assert (Hdiv : m * 2 ^ u / 2 ^ t = m * 2 ^ (u - t)).
  { replace u with ((u - t) + t) at 1 by lia.
    rewrite Z.pow_add_r, Z.mul_assoc, Z.div_mul by lia. done. }
  rewrite Hdiv, Z.log2_mul_pow2 by lia.
  assert (Hl : Z.log2 m < 53) by (apply Z.log2_lt_pow2; lia).
  set (j := Z.max (u - t + Z.log2 m - 52) 0).
  assert (Hj : 0 ≤ j ≤ u - t) by lia.
  replace (m * 2 ^ u) with ((m * 2 ^ (u - t - j)) * (2 ^ t * 2 ^ j)).
  - rewrite rne_exact.
    + rewrite <- Z.mul_assoc, <- Z.pow_add_r by lia. do 2 f_equal. lia.
    + assert (0 < 2 ^ j) by (apply Z.pow_pos_nonneg; lia). lia.
  - rewrite <- Z.mul_assoc, <- !Z.pow_add_r by lia. do 2 f_equal. lia.
Qed.

Lemma overflow_units_huge : 2 ^ 53 * one_unit < overflow_units.
Proof. vm_compute. reflexivity. Qed.

(** For a small numerator the rounded quotient never reaches the next
    integer. *)
Lemma round_units_floor a b :
  0 ≤ a < 2 ^ 26 → 0 < b →
  (a / b) * one_unit ≤ round_units a b < (a / b + 1) * one_unit.
Proof.
  intros Ha Hb. set (q := a / b).
  pose proof (Z.mul_div_le a b Hb) as Hq1.
  pose proof (Z.mul_succ_div_gt a b Hb) as Hq2.
  fold q in Hq1, Hq2. unfold Z.succ in Hq2.
  assert (Hq0 : 0 ≤ q) by (apply Z.div_pos; lia).
  assert (Hqa : q ≤ a) by (apply Z.div_le_upper_bound; nia).
  pose proof one_unit_pos as HU.
  split.
  - trans (round_units q 1); [|apply round_units_mono; lia].
    unfold round_units. change 1 with (2 ^ 0) at 1.
    rewrite round_units_at_dyadic by (unfold denorm_exp; lia).
    rewrite Z.sub_0_r. done.
  - set (m := 2 ^ 26 * (q + 1) - 1).
    assert (Hm : a * 2 ^ 26 ≤ m * b).
    { unfold m. destruct (Z_le_gt_dec b a); nia. }
    eapply Z.le_lt_trans; [apply (round_units_mono a b m (2 ^ 26)); unfold m; lia|].
    unfold round_units.
    rewrite round_units_at_dyadic by (unfold denorm_exp, m; lia).
    assert (Hs : one_unit = 2 ^ 26 * 2 ^ (denorm_exp - 26)).
    { unfold one_unit. by rewrite <- Z.pow_add_r. }
    assert (0 < 2 ^ (denorm_exp - 26)) by (by apply Z.pow_pos_nonneg).
    rewrite Hs. unfold m. nia.
Qed.

(** [int(a / b)] for a small [a >= 0] and [b > 0] is the integer
    quotient. *)
Lemma round_ne_quot a b :
  Z.abs a < 2 ^ 26 → 0 < b →
  (to_int <$> round_ne a b) = Some (Z.quot a b).
Proof.
  intros Ha Hb.
  pose proof (round_units_floor (Z.abs a) b ltac:(lia) Hb) as [Hlo Hhi].
  pose proof one_unit_pos as HU. pose proof overflow_units_huge as Hov.
  assert (Hq : 0 ≤ Z.abs a / b < 2 ^ 26).
  { split; [apply Z.div_pos; lia|]. apply Z.div_lt_upper_bound; nia. }
  unfold round_ne.
  destruct (Z.ltb_spec (round_units (Z.abs a) b) overflow_units) as [_|Hge]; [|nia].
  cbn [fmap option_fmap option_map]. f_equal. unfold to_int. cbn [units].
  set (z := round_units (Z.abs a) b) in *.
  assert (Hz : z `quot` one_unit = Z.abs a / b).
  { rewrite Z.quot_div_nonneg by lia.
    symmetry. apply Z.div_unique with (r := z - Z.abs a / b * one_unit); lia. }
  destruct (Z.abs_spec a) as [[Hsgn Habs]|[Hsgn Habs]]; rewrite Habs in *.
  - destruct (decide (a = 0)) as [->|Hne].
    + rewrite Z.quot_0_l by lia. reflexivity.
    + rewrite Z.sgn_pos, Z.mul_1_l, Hz by lia.
      symmetry. apply Z.quot_div_nonneg; lia.
  - rewrite Z.sgn_neg by lia.
    replace (-1 * z) with (- z) by lia.
    rewrite Z.quot_opp_l, Hz by lia.
    rewrite <- (Z.quot_div_nonneg (- a) b) by lia.
    rewrite Z.quot_opp_l by lia. lia.
Qed.

Lemma true_div_quot a b :
  Z.abs a < 2 ^ 26 →
  (to_int <$> true_div a b) = if bool_decide (b = 0) then None else Some (Z.quot a b).
Proof.
  intros Ha. unfold true_div.
  destruct (Z.eqb_spec b 0) as [->|Hb0]; [reflexivity|].
  rewrite bool_decide_eq_false_2 by done.
  destruct (Z.ltb_spec 0 b).
  - by apply round_ne_quot.
  - rewrite round_ne_quot by lia. by rewrite Z.quot_opp_opp by lia.
Qed.

End QuotientFacts.

(** ** The glow alpha for any round *)

Module GlowFacts.
Import Float64 QuotientFacts Pillow Loops Icon StrokeFacts.

(** X9: [alpha = int(50 / i)] is the quotient of 50 by [i] truncated
    towards zero for every integer [i] except 0, where the division
    raises; a glow call is made exactly when [i] is not 0, and the rounds
    of the loop never are. *)
Theorem glow_alpha_truncates i :
  glow_alpha i = (if bool_decide (i = 0) then None else Some (Z.quot 50 i)) ∧
  (is_Some (chevron_glow_call i) ↔ i ≠ 0) ∧
  (is_Some (cursor_glow_call i) ↔ i ≠ 0) ∧
  0 ∉ glow_rounds.
Proof.
  assert (Ha : glow_alpha i
               = if bool_decide (i = 0) then None else Some (Z.quot 50 i)).
  { unfold glow_alpha. apply true_div_quot. reflexivity. }
  split; [exact Ha|].
  unfold chevron_glow_call, cursor_glow_call. rewrite Ha.
  case_bool_decide as Hi; cbn [mbind option_bind].
  - repeat split; try (intros [? [=]]); try (intros Hne; by destruct Hne).
    rewrite glow_rounds_eq, !elem_of_cons, elem_of_nil. lia.
  - repeat split; try (intros; eexists; reflexivity); try (intros _; exact Hi).
    rewrite glow_rounds_eq, !elem_of_cons, elem_of_nil. lia.
Qed.

End GlowFacts.

(** ** The gradient image *)

Module GradientImageFacts.
Import Float64 Pillow PillowFacts Loops LoopFacts Gradient GradientFacts CanvasFacts.

Lemma truncated_blend_mono width height x y x' y' :
  0 ≤ x → 0 ≤ y → 0 < width + height → x + y ≤ x' + y' →
  truncated_blend width height x y ≤ truncated_blend width height x' y'.
Proof.
  intros Hx Hy Hn Hle. unfold truncated_blend. apply Z.div_le_mono; lia.
Qed.

(** X10: in every gradient mask the value depends on [x + y] only and
    never decreases with it: the mask is constant along anti-diagonals and
    non-decreasing to the right and downwards. *)
Theorem gradient_mask_monotone width height mask x y x' y' :
  gradient_mask width height = Some mask →
  0 ≤ x < width → 0 ≤ y < height →
  0 ≤ x' < width → 0 ≤ y' < height →
  x + y ≤ x' + y' →
  ∃ v v', getpixel mask (x, y) = Some v ∧ getpixel mask (x', y') = Some v' ∧
          v ≤ v' ∧ (x + y = x' + y' → v = v').
Proof.
  intros Hm Hx Hy Hx' Hy' Hle.
  exists (truncated_blend width height x y), (truncated_blend width height x' y').
  split; [by apply gradient_mask_pixel|]. split; [by apply gradient_mask_pixel|].
  split; [apply truncated_blend_mono; lia|].
  intros Heq. unfold truncated_blend. by rewrite Heq.
Qed.

Lemma gradient_mask_monotone_witness :
  gradient_mask 2 1 = Some (mkImage 2 1 [0; 85]) ∧
  ∃ v v', getpixel (mkImage 2 1 [0; 85]) (0, 0) = Some v ∧
          getpixel (mkImage 2 1 [0; 85]) (1, 0) = Some v' ∧ v ≤ v'.
Proof.
  assert (Hm : gradient_mask 2 1 = Some (mkImage 2 1 [0; 85]))
    by (vm_compute; reflexivity).
  split; [exact Hm|].
  destruct (gradient_mask_monotone 2 1 _ 0 0 1 0 Hm
              ltac:(lia) ltac:(lia) ltac:(lia) ltac:(lia) ltac:(lia))
    as (v & v' & Hv & Hv' & Hle & _).
  exists v, v'. split; [exact Hv|]. split; [exact Hv' | exact Hle].
Defined.

(** The mask as it is made: no value is left over from the blank image. *)
Lemma gradient_mask_eq width height :
  size_ok (width, height) = true →
  gradient_mask width height
  = Some (mkImage width height (clip8 <$> exact_rows width height)).
Proof.
  intros Hok. pose proof (size_ok_bounds _ Hok) as [Hw Hh].
  cbn [fst snd] in Hw, Hh. unfold gradient_mask, new_L. rewrite Hok.
  change (is_long_long 0) with true.
  cbn [andb mbind option_bind fst snd]. rewrite mask_data_exact by lia.
  cbn [mbind option_bind]. unfold putdata. cbn [im_width im_height im_data].
  rewrite length_exact_rows by lia. rewrite Z.leb_refl.
  rewrite drop_ge, app_nil_r; [done|].
  rewrite length_replicate.
  pose proof (length_exact_rows width height ltac:(lia) ltac:(lia)). lia.
Qed.

Lemma exact_rows_empty width height :
  0 ≤ width → 0 ≤ height → width = 0 ∨ height = 0 → exact_rows width height = [].
Proof.
  intros Hw Hh Hz. apply nil_length_inv.
  pose proof (length_exact_rows width height Hw Hh). nia.
Qed.

Lemma new_RGBA_Some size c p :
  size_ok size = true → ink c = Some p →
  new_RGBA size c
  = Some (mkImage size.1 size.2 (replicate (Z.to_nat (size.1 * size.2)) p)).
Proof. intros Hok Hp. unfold new_RGBA. by rewrite Hok, Hp. Qed.

Lemma new_RGBA_inv size c im :
  new_RGBA size c = Some im → size_ok size = true ∧ is_Some (ink c).
Proof.
  unfold new_RGBA. destruct (size_ok size); [|discriminate].
  destruct (ink c); [|discriminate]. intros _. by split; [|eexists].
Qed.

Section WithRaster.
Context `{Raster}.

(** A pasted pixel is the mix of the two pixels by the mask byte. *)
Lemma paste_pixel dst src mask r x y d s m :
  paste dst src mask = Some r →
  getpixel dst (x, y) = Some d →
  getpixel src (x, y) = Some s →
  getpixel mask (x, y) = Some m →
  getpixel r (x, y) = Some (blend_pixel m d s).
Proof.
  intros (Hms & Hsd & Hrd & Hdata)%paste_made Hd Hs Hm.
  destruct (getpixel_same_size dst r x y) as [[Hn _]|[Hd' ->]];
    [done|congruence|].
  destruct (getpixel_same_size dst src x y) as [[Hn _]|[_ Hs']];
    [done|congruence|].
  destruct (getpixel_same_size dst mask x y) as [[Hn _]|[_ Hm']];
    [congruence|congruence|].
  rewrite Hd' in Hd. rewrite Hs' in Hs. rewrite Hm' in Hm.
  rewrite Hdata, lookup_zip_with, Hd. cbn [mbind option_bind].
  rewrite lookup_zip_with, Hs, Hm. reflexivity.
Qed.

Lemma blend_pixel_keeps d s : blend_keeps → blend_pixel 0 d s = d.
Proof.
  intros Hk. destruct d as [[[dr dg] db] da], s as [[[sr sg] sb] sa].
  unfold blend_pixel. by rewrite !Hk.
Qed.

Lemma blend_pixel_copies d s : blend_copies → blend_pixel 255 d s = s.
Proof.
  intros Hk. destruct d as [[[dr dg] db] da], s as [[[sr sg] sb] sa].
  unfold blend_pixel. by rewrite !Hk.
Qed.

Lemma create_gradient_lookup width height c1 c2 g start_px end_px x y :
  create_gradient width height c1 c2 = Some g →
  ink c1 = Some start_px → ink c2 = Some end_px →
  0 ≤ x < width → 0 ≤ y < height →
  getpixel g (x, y)
  = Some (blend_pixel (truncated_blend width height x y) start_px end_px).
Proof.
  intros (base & top & mask & Hb & Ht & Hm & Hp)%create_gradient_mask Hs He Hx Hy.
  apply new_RGBA_eq in Hb as (p & Hp1 & ->).
  apply new_RGBA_eq in Ht as (q & Hq1 & ->).
  assert (p = start_px) as -> by congruence.
  assert (q = end_px) as -> by congruence.
  cbn [fst snd] in Hp.
  apply (paste_pixel _ _ _ _ _ _ _ _ _ Hp).
  - by apply getpixel_replicate.
  - by apply getpixel_replicate.
  - by apply gradient_mask_pixel.
Qed.

(** X1: every pixel (x, y) of the image [create_gradient] returns is the
    start color mixed with the end color by the mask byte
    255 * (x + y) div (width + height), as the masked paste mixes them,
    the two colors being the pixels [Image.new] makes of them; the image
    has the size asked for. *)
Theorem create_gradient_pixel width height c1 c2 g start_px end_px x y :
  create_gradient width height c1 c2 = Some g →
  ink c1 = Some start_px → ink c2 = Some end_px →
  0 ≤ x < width → 0 ≤ y < height →
  im_size g = (width, height) ∧
  getpixel g (x, y)
  = Some (blend_pixel (255 * (x + y) / (width + height)) start_px end_px).
Proof.
  intros Hg Hs He Hx Hy. split; [exact (create_gradient_made _ _ _ _ _ Hg)|].
  exact (create_gradient_lookup _ _ _ _ _ _ _ _ _ Hg Hs He Hx Hy).
Qed.

(** X2: the top-left pixel of a gradient is the start color as
    [Image.new] stores it, channels clipped to bytes, as the mask is 0
    there and a paste keeps the pixel under a mask of 0. *)
Theorem create_gradient_origin width height c1 c2 g start_px :
  blend_keeps →
  create_gradient width height c1 c2 = Some g →
  ink c1 = Some start_px →
  1 ≤ width → 1 ≤ height →
  getpixel g (0, 0) = Some start_px.
Proof.
  intros Hk Hg Hs Hw Hh.
  pose proof (create_gradient_mask _ _ _ _ _ Hg) as (_ & top & _ & _ & Ht & _).
  apply new_RGBA_inv in Ht as [_ [end_px He]].
  rewrite (create_gradient_lookup _ _ _ _ _ _ _ 0 0 Hg Hs He) by lia.
  unfold truncated_blend. rewrite Z.div_0_l by lia.
  by rewrite blend_pixel_keeps.
Qed.

(** X3: [create_gradient] returns an image exactly when its three
    [Image.new] calls succeed: the loop (no division by zero, no
    overflow in [int]), [putdata] and the paste never raise.  So it
    returns only for a width of 0 to 536870910, a height of 0 to
    2^31 - 1, and two colors Pillow accepts. *)
Theorem create_gradient_returns_iff width height c1 c2 :
  (is_Some (create_gradient width height c1 c2)
   ↔ is_Some (new_RGBA (width, height) c1)
     ∧ is_Some (new_RGBA (width, height) c2)
     ∧ is_Some (new_L (width, height) 0)) ∧
  (is_Some (create_gradient width height c1 c2) →
   0 ≤ width ≤ 536870910 ∧ 0 ≤ height ≤ 2 ^ 31 - 1
   ∧ is_Some (ink c1) ∧ is_Some (ink c2)).
Proof.
  assert (Hmade : is_Some (create_gradient width height c1 c2) →
    is_Some (new_RGBA (width, height) c1)
    ∧ is_Some (new_RGBA (width, height) c2)
    ∧ is_Some (new_L (width, height) 0)).
  { intros [g (base & top & mask & Hb & Ht & Hm & _)%create_gradient_mask].
    split; [by eexists|]. split; [by eexists|].
    unfold gradient_mask in Hm. apply bind_Some in Hm as (m & Hm & _).
    by eexists. }
  split; [split; [exact Hmade|]|].
  - intros ([base [Hok H1]%new_RGBA_inv] & [top [_ H2]%new_RGBA_inv] & _).
    by apply create_gradient_total.
  - intros ([base [Hok H1]%new_RGBA_inv] & [top [_ H2]%new_RGBA_inv] & _)%Hmade.
    apply size_ok_iff in Hok as [Hw Hh]. cbn [fst snd] in Hw, Hh.
    unfold INT_MAX in Hh. done.
Qed.

(** X4: for a size with no pixels (width 0 or height 0) the loops append
    nothing, so that nothing is divided, not even at 0x0 where
    width + height is 0; when the two color images are made,
    [create_gradient] returns the first of them, which has no pixels. *)
Theorem create_gradient_empty width height c1 c2 base :
  new_RGBA (width, height) c1 = Some base →
  is_Some (new_RGBA (width, height) c2) →
  width = 0 ∨ height = 0 →
  mask_data width height = Some [] ∧
  create_gradient width height c1 c2 = Some base ∧
  base = mkImage width height [].
Proof.
  intros Hb [top Ht] Hz.
  pose proof (new_RGBA_inv _ _ _ Hb) as [Hok _].
  pose proof (size_ok_bounds _ Hok) as [Hw Hh]. cbn [fst snd] in Hw, Hh.
  assert (Hrows : exact_rows width height = []) by (apply exact_rows_empty; lia).
  assert (Hn : Z.to_nat (width * height) = 0%nat) by nia.
  pose proof (new_RGBA_eq _ _ _ Hb) as (p & _ & Hbase).
  pose proof (new_RGBA_eq _ _ _ Ht) as (q & _ & Htop).
  cbn [fst snd] in Hbase, Htop. rewrite Hn in Hbase, Htop.
  cbn [replicate] in Hbase, Htop.
  split; [by rewrite mask_data_exact, Hrows by lia|].
  split; [|exact Hbase].
  unfold create_gradient. rewrite Hb, Ht, gradient_mask_eq, Hrows by done.
  cbn [mbind option_bind fmap list_fmap]. rewrite Hbase, Htop.
  unfold paste. rewrite bool_decide_eq_true_2 by done. reflexivity.
Qed.

End WithRaster.

Lemma create_gradient_pixel_witness :
  @create_gradient Reference.flat_raster 2 1 [0; 212; 255] [189; 0; 255]
  = Some (mkImage 2 1 [(0, 212, 255, 255); (63, 141, 255, 255)]) ∧
  getpixel (mkImage 2 1 [(0, 212, 255, 255); (63, 141, 255, 255)]) (1, 0)
  = Some (@blend_pixel Reference.flat_raster (255 * (1 + 0) / (2 + 1))
            (0, 212, 255, 255) (189, 0, 255, 255)).
Proof.
  assert (Hg : @create_gradient Reference.flat_raster 2 1 [0; 212; 255] [189; 0; 255]
               = Some (mkImage 2 1 [(0, 212, 255, 255); (63, 141, 255, 255)]))
    by (vm_compute; reflexivity).
  split; [exact Hg|].
  exact (proj2 (@create_gradient_pixel Reference.flat_raster 2 1 _ _ _ _ _ 1 0 Hg
                  eq_refl eq_refl ltac:(lia) ltac:(lia))).
Defined.

Lemma create_gradient_origin_witness :
  @create_gradient Reference.flat_raster 2 1 [0; 212; 255] [189; 0; 255]
  = Some (mkImage 2 1 [(0, 212, 255, 255); (63, 141, 255, 255)]) ∧
  getpixel (mkImage 2 1 [(0, 212, 255, 255); (63, 141, 255, 255)]) (0, 0)
  = Some (0, 212, 255, 255).
Proof.
  assert (Hg : @create_gradient Reference.flat_raster 2 1 [0; 212; 255] [189; 0; 255]
               = Some (mkImage 2 1 [(0, 212, 255, 255); (63, 141, 255, 255)]))
    by (vm_compute; reflexivity).
  split; [exact Hg|].
  exact (@create_gradient_origin Reference.flat_raster 2 1 _ _ _ _
           ReferenceFacts.flat_blend_keeps Hg eq_refl ltac:(lia) ltac:(lia)).
Defined.

Lemma create_gradient_empty_witness :
  new_RGBA (0, 5) [0; 212; 255] = Some (mkImage 0 5 []) ∧
  @create_gradient Reference.flat_raster 0 5 [0; 212; 255] [189; 0; 255]
  = Some (mkImage 0 5 []).
Proof.
  split; [reflexivity|].
  refine (proj1 (proj2 (@create_gradient_empty Reference.flat_raster 0 5
                          [0; 212; 255] [189; 0; 255] _ eq_refl _
                          (or_introl eq_refl)))).
  eexists. reflexivity.
Defined.

End GradientImageFacts.

(** ** The badge before the glyphs *)

Module BadgeFacts.
Import Pillow PillowFacts Loops Gradient GradientFacts Icon CanvasFacts
  GradientImageFacts IconFacts.

Lemma in_canvas_of_pixel {A} (im : Image A) x y p :
  im_size im = (size, size) → getpixel im (x, y) = Some p →
  (0 ≤ x < size) ∧ (0 ≤ y < size).
Proof.
  unfold im_size. intros Hs (Hx & Hy & _)%getpixel_lookup.
  injection Hs as Hw Hh. rewrite Hw in Hx. rewrite Hh in Hy. by split.
Qed.

Section WithRaster.
Context `{Raster}.

Lemma outer_mask_eq mask :
  outer_mask = Some mask →
  mask = draw_L outer_mask_call
           (mkImage size size (replicate (Z.to_nat (size * size)) 0)).
Proof.
  unfold outer_mask. intros Hm.
  apply bind_Some in Hm as (m & Hm & Hd). injection Hd as <-.
  apply new_L_eq in Hm. rewrite Hm. reflexivity.
Qed.

Lemma outer_mask_outside mask x y :
  rounded_rectangle_inside →
  outer_mask = Some mask →
  0 ≤ x < size → 0 ≤ y < size →
  ¬ (padding ≤ x ≤ size - padding ∧ padding ≤ y ≤ size - padding) →
  getpixel mask (x, y) = Some 0.
Proof.
  intros Hinside Hm Hx Hy Hout.
  apply outer_mask_eq in Hm as ->.
  unfold outer_mask_call. rewrite Hinside by exact Hout.
  by apply getpixel_replicate.
Qed.

Lemma gradient_shape_parts shape :
  gradient_shape = Some shape →
  ∃ mask gradient blank,
    outer_mask = Some mask ∧
    create_gradient size size color_cyan color_purple = Some gradient ∧
    new_RGBA (size, size) [0; 0; 0; 0] = Some blank ∧
    paste blank gradient mask = Some shape.
Proof.
  unfold gradient_shape. intros Hs.
  apply bind_Some in Hs as (mask & Hm & Hs).
  apply bind_Some in Hs as (g & Hg & Hs).
  apply bind_Some in Hs as (blank & Hb & Hs).
  exists mask, g, blank. split; [exact Hm|]. split; [exact Hg|].
  split; [exact Hb | exact Hs].
Qed.

Lemma blank_pixel blank x y :
  new_RGBA (size, size) [0; 0; 0; 0] = Some blank →
  0 ≤ x < size → 0 ≤ y < size →
  getpixel blank (x, y) = Some (0, 0, 0, 0).
Proof.
  intros (p & Hp & ->)%new_RGBA_eq Hx Hy. injection Hp as <-.
  cbn [fst snd]. by apply getpixel_replicate.
Qed.

Lemma dark_pixel dark x y :
  new_RGBA (size, size) color_bg = Some dark →
  0 ≤ x < size → 0 ≤ y < size →
  getpixel dark (x, y) = Some (10, 10, 18, 255).
Proof.
  intros (p & Hp & ->)%new_RGBA_eq Hx Hy. injection Hp as <-.
  cbn [fst snd]. by apply getpixel_replicate.
Qed.

(** The pixel of the gradient of the canvas. *)
Lemma canvas_gradient_pixel gradient x y :
  create_gradient size size color_cyan color_purple = Some gradient →
  0 ≤ x < size → 0 ≤ y < size →
  getpixel gradient (x, y)
  = Some (blend_pixel (truncated_blend size size x y)
            (0, 212, 255, 255) (189, 0, 255, 255)).
Proof.
  intros Hg Hx Hy.
  exact (create_gradient_lookup _ _ _ _ _ _ _ _ _ Hg eq_refl eq_refl Hx Hy).
Qed.

(** The canvas after step 4 and after step 5, pixel by pixel. *)
Lemma gradient_shape_pixel shape mask x y m :
  gradient_shape = Some shape →
  outer_mask = Some mask →
  getpixel mask (x, y) = Some m →
  getpixel shape (x, y)
  = Some (blend_pixel m (0, 0, 0, 0)
            (blend_pixel (truncated_blend size size x y)
               (0, 212, 255, 255) (189, 0, 255, 255))).
Proof.
  intros (mask' & g & blank & Hm' & Hg & Hb & Hp)%gradient_shape_parts Hm Hpx.
  assert (mask' = mask) as -> by congruence.
  pose proof (in_canvas_of_pixel _ _ _ _ (outer_mask_made _ Hm) Hpx) as [Hx Hy].
  apply (paste_pixel _ _ _ _ _ _ _ _ _ Hp).
  - by apply blank_pixel.
  - by apply canvas_gradient_pixel.
  - exact Hpx.
Qed.

Lemma paste_panel_pixel icon_shape shape mask x y m d :
  paste_panel icon_shape = Some shape →
  inner_mask = Some mask →
  getpixel mask (x, y) = Some m →
  getpixel icon_shape (x, y) = Some d →
  getpixel shape (x, y) = Some (blend_pixel m d (10, 10, 18, 255)).
Proof.
  intros (Hsi & _ & mask' & dark & Hm' & Hd & Hp)%paste_panel_made Hm Hpx Hdx.
  assert (mask' = mask) as -> by congruence.
  pose proof (in_canvas_of_pixel _ _ _ _ Hsi Hdx) as [Hx Hy].
  apply (paste_pixel _ _ _ _ _ _ _ _ _ Hp); [exact Hdx| |exact Hpx].
  by apply dark_pixel.
Qed.

(** X5: after the two pastes every pixel of the canvas outside the
    bounding box of the outer rounded mask, the margin of [padding]
    pixels, is still fully transparent. *)
Theorem margin_stays_transparent icon_shape shape x y :
  blend_keeps → rounded_rectangle_inside →
  gradient_shape = Some icon_shape →
  paste_panel icon_shape = Some shape →
  0 ≤ x < size → 0 ≤ y < size →
  ¬ (padding ≤ x ≤ size - padding ∧ padding ≤ y ≤ size - padding) →
  getpixel icon_shape (x, y) = Some (0, 0, 0, 0) ∧
  getpixel shape (x, y) = Some (0, 0, 0, 0).
Proof.
  intros Hkeep Hinside Hg Hp Hx Hy Hout.
  pose proof (gradient_shape_parts _ Hg) as (om & _ & _ & Hom & _).
  pose proof (paste_panel_made _ _ Hp) as (_ & _ & im & _ & Him & _).
  pose proof (outer_mask_outside _ _ _ Hinside Hom Hx Hy Hout) as Ho.
  assert (Hi : getpixel im (x, y) = Some 0).
  { apply (inner_mask_outside _ _ _ Hinside Him Hx Hy).
    unfold inner_padding, padding, border_width, size in *. lia. }
  assert (H1 : getpixel icon_shape (x, y) = Some (0, 0, 0, 0)).
  { rewrite (gradient_shape_pixel _ _ _ _ _ Hg Hom Ho).
    by rewrite blend_pixel_keeps. }
  split; [exact H1|].
  rewrite (paste_panel_pixel _ _ _ _ _ _ _ Hp Him Hi H1).
  by rewrite blend_pixel_keeps.
Qed.

(** X6: after the two pastes a pixel where the inner mask is 255 is the
    opaque dark color (10, 10, 18, 255), and a pixel where the inner mask
    is 0 and the outer mask is 255, the border, is the pixel of the
    gradient: cyan mixed with purple by 255 * (x + y) div 512. *)
Theorem badge_colors icon_shape shape outer inner x y :
  blend_keeps → blend_copies →
  gradient_shape = Some icon_shape →
  paste_panel icon_shape = Some shape →
  outer_mask = Some outer → inner_mask = Some inner →
  (getpixel inner (x, y) = Some 255 → is_Some (getpixel outer (x, y)) →
     getpixel shape (x, y) = Some (10, 10, 18, 255)) ∧
  (getpixel inner (x, y) = Some 0 → getpixel outer (x, y) = Some 255 →
     getpixel shape (x, y)
     = Some (blend_pixel (255 * (x + y) / (size + size))
               (0, 212, 255, 255) (189, 0, 255, 255))).
Proof.
  intros Hkeep Hcopy Hg Hp Hom Him. split.
  - intros Hi [m Ho].
    rewrite (paste_panel_pixel _ _ _ _ _ _ _ Hp Him Hi
               (gradient_shape_pixel _ _ _ _ _ Hg Hom Ho)).
    by rewrite blend_pixel_copies.
  - intros Hi Ho.
    rewrite (paste_panel_pixel _ _ _ _ _ _ _ Hp Him Hi
               (gradient_shape_pixel _ _ _ _ _ Hg Hom Ho)).
    by rewrite blend_pixel_keeps, blend_pixel_copies.
Qed.

End WithRaster.

(** The two theorems at the small rasteriser. *)
Import Reference ReferenceFacts.

Lemma flat_blend_copies : @blend_copies flat_raster.
Proof. intros d s. reflexivity. Qed.

(** The small rasteriser fills the whole bounding box. *)
Lemma flat_box_filled x0 y0 x1 y1 radius v w h x y :
  0 ≤ x < w → 0 ≤ y < h → x0 ≤ x ≤ x1 → y0 ≤ y ≤ y1 →
  getpixel (@draw_L flat_raster (rounded_rectangle [(x0, y0); (x1, y1)] radius [v])
              (mkImage w h (replicate (Z.to_nat (w * h)) 0))) (x, y)
  = Some v.
Proof.
  intros Hx Hy Hbx Hby. unfold getpixel.
  cbn [draw_L im_width im_height im_data fst snd raster_L flat_raster flat_L].
  destruct (Z.leb_spec 0 x); [|lia]. destruct (Z.ltb_spec x w); [|lia].
  destruct (Z.leb_spec 0 y); [|lia]. destruct (Z.ltb_spec y h); [|lia].
  cbn [andb]. unfold fill_box, im_size. cbn [im_width im_height fst].
  rewrite list_lookup_imap, lookup_replicate_2 by nia.
  cbn [fmap option_fmap option_map]. f_equal.
  unfold in_box. rewrite Z2Nat.id by nia.
  rewrite Z.add_comm, Z_mod_plus_full, Z.mod_small by lia.
  rewrite Z.div_add, Z.div_small, Z.add_0_l by lia.
  destruct (Z.leb_spec x0 x), (Z.leb_spec x x1), (Z.leb_spec y0 y), (Z.leb_spec y y1);
    cbn [andb]; (reflexivity || lia).
Qed.

Lemma margin_stays_transparent_witness :
  ∃ icon_shape shape,
    @gradient_shape flat_raster = Some icon_shape ∧
    @paste_panel flat_raster icon_shape = Some shape ∧
    getpixel shape (10, 128) = Some (0, 0, 0, 0).
Proof.
  pose proof (@gradient_shape_total flat_raster) as [icon_shape Hg].
  pose proof (@paste_panel_total flat_raster icon_shape (gradient_shape_made _ Hg))
    as [shape Hp].
  exists icon_shape, shape. split; [exact Hg|]. split; [exact Hp|].
  refine (proj2 (@margin_stays_transparent flat_raster icon_shape shape 10 128
                   flat_blend_keeps flat_rounded_rectangle_inside Hg Hp _ _ _));
    unfold padding, size; lia.
Defined.

Lemma badge_colors_witness :
  ∃ icon_shape shape,
    @gradient_shape flat_raster = Some icon_shape ∧
    @paste_panel flat_raster icon_shape = Some shape ∧
    getpixel shape (128, 128) = Some (10, 10, 18, 255) ∧
    getpixel shape (24, 128)
    = Some (@blend_pixel flat_raster (255 * (24 + 128) / (size + size))
              (0, 212, 255, 255) (189, 0, 255, 255)).
Proof.
  pose proof (@gradient_shape_total flat_raster) as [icon_shape Hg].
  pose proof (@paste_panel_total flat_raster icon_shape (gradient_shape_made _ Hg))
    as [shape Hp].
  pose proof (@outer_mask_total flat_raster) as [outer Ho].
  pose proof (@inner_mask_total flat_raster) as [inner Hi].
  exists icon_shape, shape. split; [exact Hg|]. split; [exact Hp|].
  pose proof (@outer_mask_eq flat_raster _ Ho) as Hoe.
  pose proof (proj2 (@inner_mask_made flat_raster _ Hi)) as Hie.
  split.
  - refine (proj1 (@badge_colors flat_raster icon_shape shape outer inner 128 128
                     flat_blend_keeps flat_blend_copies Hg Hp Ho Hi) _ _).
    + rewrite Hie. apply flat_box_filled; unfold inner_padding, padding, border_width, size; lia.
    + rewrite Hoe. eexists. apply flat_box_filled; unfold padding, size; lia.
  - refine (proj2 (@badge_colors flat_raster icon_shape shape outer inner 24 128
                     flat_blend_keeps flat_blend_copies Hg Hp Ho Hi) _ _).
    + apply (@inner_mask_outside flat_raster _ _ _ flat_rounded_rectangle_inside Hi);
        unfold inner_padding, padding, border_width, size; lia.
    + rewrite Hoe. apply flat_box_filled; unfold padding, size; lia.
Defined.

End BadgeFacts.

(** ** What a run does to the file system *)

Module RunFacts.
Import Pillow PillowFacts Loops Icon CanvasFacts ExportFacts IconFacts.

Section WithRaster.
Context `{Raster}.

(** The export step by step. *)
Lemma export_steps canvas fs fs' :
  export canvas fs = Some fs' →
  ∃ fs0 icon_images fs1 fs2,
    ensure_output_dir fs = Some fs0 ∧
    resample_all canvas = Some icon_images ∧
    save_ico icon_images fs0 = Some fs1 ∧
    save_png canvas (print ("Icon generated successfully at: " +:+ output_path) fs1)
    = Some fs2 ∧
    fs' = print ("PNG version saved at: " +:+ png_path) fs2.
Proof.
  unfold export. intros He.
  apply bind_Some in He as (fs0 & H0 & He).
  apply bind_Some in He as (icon_images & Hf & He).
  apply bind_Some in He as (fs1 & H1 & He).
  apply bind_Some in He as (fs2 & H2 & He). injection He as <-.
  by exists fs0, icon_images, fs1, fs2.
Qed.

Lemma save_ico_made frames fs fs' :
  save_ico frames fs = Some fs' →
  output_dir ∈ dirs fs ∧ (output_path ∉ dirs fs) ∧
  dirs fs' = dirs fs ∧ stdout fs' = stdout fs ∧
  ∃ bytes, files fs' = <[output_path := bytes]> (files fs).
Proof.
  unfold save_ico. destruct frames as [|first rest]; [discriminate|].
  intros (Hd & Hn & Hdirs & Hfiles & Hout)%write_file_made.
  repeat split; try done. by eexists.
Qed.

Lemma export_effects canvas fs fs' :
  export canvas fs = Some fs' →
  stdout fs' = stdout fs ++ ["Icon generated successfully at: " +:+ output_path;
                             "PNG version saved at: " +:+ png_path] ∧
  (∀ p, p ≠ output_path → p ≠ png_path → files fs' !! p = files fs !! p) ∧
  dirs fs ⊆ dirs fs' ∧ dirs fs' ⊆ {[output_dir]} ∪ dirs fs ∧
  output_dir ∈ dirs fs' ∧
  is_Some (files fs' !! output_path) ∧ is_Some (files fs' !! png_path) ∧
  (output_dir ∈ dirs fs ∨ path_exists output_dir fs = false) ∧
  (output_path ∉ dirs fs) ∧ (png_path ∉ dirs fs).
Proof.
  intros (fs0 & icon_images & fs1 & fs2 & H0 & _ & H1 & H2 & ->)%export_steps.
  pose proof (ensure_output_dir_made _ _ H0) as (Hf0 & Hs0 & _ & Hcase).
  pose proof (ensure_output_dir_mono _ _ H0) as [Hsub0 Hsub1].
  apply save_ico_made in H1 as (Hd1 & Hn1 & Hdirs1 & Hs1 & bytes & Hf1).
  unfold save_png in H2.
  apply write_file_made in H2 as (Hd2 & Hn2 & Hdirs2 & Hf2 & Hs2).
  cbn [print dirs files stdout] in *.
  pose proof output_path_ne_png_path as Hne.
  split; [|split; [|split; [|split; [|split; [|split; [|split; [|split; [|split]]]]]]]].
  - rewrite Hs2, Hs1, Hs0, <- app_assoc. reflexivity.
  - intros p Hp1 Hp2. rewrite Hf2, Hf1, Hf0.
    rewrite lookup_insert_ne by done. by rewrite lookup_insert_ne.
  - by rewrite Hdirs2, Hdirs1.
  - by rewrite Hdirs2, Hdirs1.
  - by rewrite Hdirs2, Hdirs1.
  - rewrite Hf2, Hf1. rewrite lookup_insert_ne by done.
    rewrite lookup_insert_eq. by eexists.
  - rewrite Hf2, lookup_insert_eq. by eexists.
  - destruct Hcase as [[He ->]|[He _]]; [by left | by right].
  - intros Hin. apply Hn1. by apply Hsub0.
  - intros Hin. apply Hn2. rewrite Hdirs1. by apply Hsub0.
Qed.

(** X7: a run that finishes prints its two lines, the ICO line first,
    after what was printed before; it leaves every file other than
    [app.ico] and [app.png] as it was, both of which exist afterwards;
    it removes no directory, and the output directory is there
    afterwards. *)
Theorem run_touches_only_outputs fs fs' :
  generate_app_icon fs = Some fs' →
  stdout fs' = stdout fs ++ ["Icon generated successfully at: " +:+ output_path;
                             "PNG version saved at: " +:+ png_path] ∧
  (∀ p, p ≠ output_path → p ≠ png_path → files fs' !! p = files fs !! p) ∧
  dirs fs ⊆ dirs fs' ∧
  output_dir ∈ dirs fs' ∧
  is_Some (files fs' !! output_path) ∧ is_Some (files fs' !! png_path).
Proof.
  intros (canvas & _ & He)%generate_app_icon_made.
  pose proof (export_effects _ _ _ He) as (H1 & H2 & H3 & _ & H5 & H6 & H7 & _).
  split; [exact H1|]. split; [exact H2|]. split; [exact H3|].
  split; [exact H5|]. split; [exact H6 | exact H7].
Qed.

(** X8: a run finishes only when the output directory is a directory
    or does not exist, and neither output path is a directory.  So it
    raises when a regular file sits at the output directory's path: the
    existence test then skips [os.makedirs] and the first save fails;
    and it raises when a directory sits at the path of [app.ico] or of
    [app.png]. *)
Theorem run_raises_on_blocked_paths fs :
  (is_Some (generate_app_icon fs) →
     (output_dir ∈ dirs fs ∨ path_exists output_dir fs = false) ∧
     (output_path ∉ dirs fs) ∧ (png_path ∉ dirs fs)) ∧
  ((output_dir ∉ dirs fs) ∧ is_Some (files fs !! output_dir) →
     generate_app_icon fs = None) ∧
  (output_path ∈ dirs fs ∨ png_path ∈ dirs fs → generate_app_icon fs = None).
Proof.
  assert (Hneeds : is_Some (generate_app_icon fs) →
    (output_dir ∈ dirs fs ∨ path_exists output_dir fs = false) ∧
    (output_path ∉ dirs fs) ∧ (png_path ∉ dirs fs)).
  { intros [fs' (canvas & _ & He)%generate_app_icon_made].
    pose proof (export_effects _ _ _ He)
      as (_ & _ & _ & _ & _ & _ & _ & H8 & H9 & H10).
    split; [exact H8|]. split; [exact H9 | exact H10]. }
  split; [exact Hneeds|]. split.
  - intros [Hnd Hfile].
    apply eq_None_not_Some. intros Hsome.
    apply Hneeds in Hsome as ([Hd|He] & _); [exact (Hnd Hd)|].
    unfold path_exists in He. apply bool_decide_eq_false_1 in He.
    apply He. right. exact Hfile.
  - intros Hblocked.
    apply eq_None_not_Some. intros Hsome.
    apply Hneeds in Hsome as (_ & Hi & Hp).
    destruct Hblocked as [Hin|Hin]; [exact (Hi Hin) | exact (Hp Hin)].
Qed.

End WithRaster.

Import Reference ReferenceFacts.

Lemma run_touches_only_outputs_witness :
  ∃ fs',
    @generate_app_icon flat_raster (mkFs {[output_dir]} ∅ []) = Some fs' ∧
    stdout fs' = ["Icon generated successfully at: " +:+ output_path;
                  "PNG version saved at: " +:+ png_path].
Proof.
  destruct prepared_fs_ready as (Hd & Hi & Hp).
  pose proof (@generate_app_icon_total flat_raster _ (or_introl Hd) Hi Hp) as [fs' Hrun].
  exists fs'. split; [exact Hrun|].
  exact (proj1 (@run_touches_only_outputs flat_raster _ _ Hrun)).
Defined.

Lemma run_raises_on_blocked_paths_witness :
  @generate_app_icon flat_raster (mkFs ∅ {[output_dir := []]} []) = None.
Proof.
  refine (proj1 (proj2 (@run_raises_on_blocked_paths flat_raster
                          (mkFs ∅ {[output_dir := []]} []))) _).
  cbn [dirs files]. split; [apply not_elem_of_empty|].
  rewrite lookup_singleton_eq. eexists. reflexivity.
Defined.

End RunFacts.

(** ** More on the mask and on the glyph step *)

Module StepFacts.
Import Pillow PillowFacts Loops LoopFacts Gradient GradientFacts Icon StrokeFacts
  CanvasFacts.

(** X11: in a gradient mask whose width and height add up to at least
    255, as on the 256x256 canvas, the value grows by at most 1 from a
    pixel to its right or lower neighbour (to any pixel one anti-diagonal
    further). *)
Theorem gradient_mask_smooth width height mask x y x' y' :
  gradient_mask width height = Some mask →
  255 ≤ width + height →
  0 ≤ x < width → 0 ≤ y < height →
  0 ≤ x' < width → 0 ≤ y' < height →
  x' + y' = x + y + 1 →
  ∃ v v', getpixel mask (x, y) = Some v ∧ getpixel mask (x', y') = Some v' ∧
          v ≤ v' ≤ v + 1.
Proof.
  intros Hm Hn Hx Hy Hx' Hy' Hstep.
  exists (truncated_blend width height x y), (truncated_blend width height x' y').
  split; [by apply gradient_mask_pixel|]. split; [by apply gradient_mask_pixel|].
  unfold truncated_blend. rewrite Hstep. split.
  - apply Z.div_le_mono; lia.
  - trans ((255 * (x + y) + 1 * (width + height)) / (width + height)).
    + apply Z.div_le_mono; lia.
    + rewrite Z.div_add by lia. lia.
Qed.

Lemma gradient_mask_smooth_witness :
  ∃ mask v v',
    gradient_mask 254 1 = Some mask ∧
    getpixel mask (100, 0) = Some v ∧ getpixel mask (101, 0) = Some v' ∧
    v ≤ v' ≤ v + 1.
Proof.
  assert (Hw : 0 ≤ 254 ≤ INT_MAX) by (unfold INT_MAX; lia).
  assert (Hh : 0 ≤ 1 ≤ INT_MAX) by (unfold INT_MAX; lia).
  pose proof (gradient_mask_total 254 1 Hw Hh) as Hsome.
  destruct Hsome as [mask Hm].
  pose proof (gradient_mask_smooth 254 1 mask 100 0 101 0 Hm
                ltac:(lia) ltac:(lia) ltac:(lia) ltac:(lia) ltac:(lia) ltac:(lia))
    as (v & v' & Hv & Hv' & Hle).
  exists mask, v, v'. split; [exact Hm|]. split; [exact Hv|].
  split; [exact Hv' | exact Hle].
Defined.

Section WithRaster.
Context `{Raster}.

(** C8: on any canvas the glyph step draws, for each glyph, the strokes
    of its glow loop as i goes from 5 down to 1 and then its top stroke,
    the chevron first.  In the order they are drawn the strokes of a
    glyph get strictly narrower (a line by its width, a rectangle by how
    far it reaches beyond the bar on its four sides) and strictly more
    opaque; the top stroke, drawn last, has the base width (for the
    cursor: it is the bar itself) and full opacity. *)
Theorem strokes_narrow_and_harden icon_shape :
  ∃ chevron_glow cursor_glow,
    mapM chevron_glow_call glow_rounds = Some chevron_glow ∧
    mapM cursor_glow_call glow_rounds = Some cursor_glow ∧
    length chevron_glow = 5%nat ∧ length cursor_glow = 5%nat ∧
    draw_glyphs icon_shape
    = Some (foldl (λ im c, draw_RGBA c im) icon_shape
              ((chevron_glow ++ [chevron_main_call])
               ++ (cursor_glow ++ [cursor_main_call]))) ∧
    StronglySorted (λ a b, below (stroke_extent b) (stroke_extent a))
      (chevron_glow ++ [chevron_main_call]) ∧
    StronglySorted (λ a b, below (stroke_alpha a) (stroke_alpha b))
      (chevron_glow ++ [chevron_main_call]) ∧
    stroke_extent chevron_main_call = Some arrow_width ∧
    stroke_alpha chevron_main_call = Some 255 ∧
    StronglySorted (λ a b, below (stroke_extent b) (stroke_extent a))
      (cursor_glow ++ [cursor_main_call]) ∧
    StronglySorted (λ a b, below (stroke_alpha a) (stroke_alpha b))
      (cursor_glow ++ [cursor_main_call]) ∧
    stroke_extent cursor_main_call = Some 0 ∧
    stroke_alpha cursor_main_call = Some 255.
Proof.
  eexists _, _.
  split; [exact glow_calls_chevron|]. split; [exact glow_calls_cursor|].
  split; [reflexivity|]. split; [reflexivity|].
  split; [exact (draw_glyphs_strokes icon_shape _ _
                   chevron_strokes_eq cursor_strokes_eq)|].
  repeat split; repeat constructor.
Qed.

(** X12: the glyph step never raises and amounts to twelve draw calls on
    the canvas in this order: the chevron's glow lines from the widest,
    faintest to the narrowest, then its white line, then the cursor's glow
    rectangles from the largest to the smallest, then the bar. *)
Theorem draw_glyphs_calls icon_shape :
  draw_glyphs icon_shape
  = Some (foldl (λ im c, draw_RGBA c im) icon_shape
      [line [(68, 68); (128, 128); (68, 188)] [0; 212; 255; 10] 40 "curve";
       line [(68, 68); (128, 128); (68, 188)] [0; 212; 255; 12] 36 "curve";
       line [(68, 68); (128, 128); (68, 188)] [0; 212; 255; 16] 32 "curve";
       line [(68, 68); (128, 128); (68, 188)] [0; 212; 255; 25] 28 "curve";
       line [(68, 68); (128, 128); (68, 188)] [0; 212; 255; 50] 24 "curve";
       line [(68, 68); (128, 128); (68, 188)] [255; 255; 255] 20 "curve";
       rectangle [143; 153; 223; 198] [189; 0; 255; 10];
       rectangle [146; 156; 220; 195] [189; 0; 255; 12];
       rectangle [149; 159; 217; 192] [189; 0; 255; 16];
       rectangle [152; 162; 214; 189] [189; 0; 255; 25];
       rectangle [155; 165; 211; 186] [189; 0; 255; 50];
       rectangle [158; 168; 208; 183] [189; 0; 255]]).
Proof.
  etrans; [exact (draw_glyphs_strokes icon_shape _ _
                    chevron_strokes_eq cursor_strokes_eq)|].
  reflexivity.
Qed.

End WithRaster.

End StepFacts.
